(** * The No-U-Turn Sampler of [nuts.py]: a shallow embedding and its properties

    The development follows the source file function by function:
    [leapfrog], [find_reasonable_epsilon], [stop_criterion], [build_tree]
    and [nuts6], and the example target of [test_nuts6].

    Numbers.  A Python/NumPy float is modelled by [num]: an exact rational
    (the finite values) or one of the three IEEE special values.  Finite
    arithmetic is exact: there is no rounding and no overflow.  The special
    values follow IEEE 754 (signed zeros apart).  The transcendental
    functions of NumPy are an interface ([Libm]); the global random generator
    of NumPy is another one ([RandomState]).

    Arrays.  A one-dimensional array is a list of numbers.  All vectors of one
    run have the common dimension [D]; element-wise operations are defined on
    lists position by position. *)

From Stdlib Require Import ZArith QArith Qcanon List Bool Lia Lqa.
Import ListNotations.


(** ** Floating-point values *)

Inductive num : Type :=
| Fin (q : Qc)
| PInf
| NInf
| NaN.

Declare Scope num_scope.
Delimit Scope num_scope with num.
Bind Scope num_scope with num.

Definition of_Q (q : Q) : num := Fin (Q2Qc q).
Definition of_Z (z : Z) : num := of_Q (inject_Z z).

Definition neg (x : num) : num :=
  match x with
  | Fin a => Fin (- a)
  | PInf => NInf
  | NInf => PInf
  | NaN => NaN
  end.

Definition add (x y : num) : num :=
  match x, y with
  | NaN, _ | _, NaN => NaN
  | Fin a, Fin b => Fin (a + b)
  | PInf, NInf | NInf, PInf => NaN
  | PInf, _ | _, PInf => PInf
  | NInf, _ | _, NInf => NInf
  end.

Definition sub (x y : num) : num := add x (neg y).

(** The infinity with the sign of [c] ([Gt] is positive); [Eq] stands for a
    zero factor, whose product with an infinity is not a number. *)
Definition signed_inf (c : comparison) : num :=
  match c with
  | Gt => PInf
  | Lt => NInf
  | Eq => NaN
  end.

Definition mul (x y : num) : num :=
  match x, y with
  | NaN, _ | _, NaN => NaN
  | Fin a, Fin b => Fin (a * b)
  | Fin a, PInf | PInf, Fin a => signed_inf (a ?= 0)%Qc
  | Fin a, NInf | NInf, Fin a => signed_inf (CompOpp (a ?= 0)%Qc)
  | PInf, PInf | NInf, NInf => PInf
  | PInf, NInf | NInf, PInf => NInf
  end.

(** NumPy's [/]: a zero divisor gives an infinity or [NaN], never an error. *)
Definition npdiv (x y : num) : num :=
  match x, y with
  | NaN, _ | _, NaN => NaN
  | Fin a, Fin b =>
      match (b ?= 0)%Qc with
      | Eq => signed_inf (a ?= 0)%Qc
      | _ => Fin (a / b)
      end
  | Fin _, _ => Fin 0
  | PInf, Fin b => match (b ?= 0)%Qc with Lt => NInf | _ => PInf end
  | NInf, Fin b => match (b ?= 0)%Qc with Lt => PInf | _ => NInf end
  | _, _ => NaN
  end.

Definition ltb (x y : num) : bool :=
  match x, y with
  | NaN, _ | _, NaN => false
  | Fin a, Fin b => match (a ?= b)%Qc with Lt => true | _ => false end
  | NInf, NInf | PInf, _ => false
  | NInf, _ | _, PInf => true
  | _, NInf => false
  end.

Definition leb (x y : num) : bool :=
  match x, y with
  | NaN, _ | _, NaN => false
  | Fin a, Fin b => match (a ?= b)%Qc with Gt => false | _ => true end
  | NInf, _ | _, PInf => true
  | PInf, _ | _, NInf => false
  end.

Definition gtb (x y : num) : bool := ltb y x.
Definition geb (x y : num) : bool := leb y x.

(** [np.isfinite] *)
Definition isfinite (x : num) : bool :=
  match x with
  | Fin _ => true
  | _ => false
  end.

Infix "+" := add : num_scope.
Infix "-" := sub : num_scope.
Infix "*" := mul : num_scope.
Infix "/" := npdiv : num_scope.
Notation "- x" := (neg x) : num_scope.
Infix "<?" := ltb : num_scope.
Infix ">?" := gtb : num_scope.
Infix ">=?" := geb : num_scope.

(** Python's built-in [min(a, b)] and [max(a, b)] on two arguments: the first
    argument is kept unless the second is strictly smaller (larger). *)
Definition pymin (a b : num) : num := if (b <? a)%num then b else a.
Definition pymax (a b : num) : num := if (b >? a)%num then b else a.

(** The literals of the source. *)
Definition zero : num := of_Z 0.
Definition one : num := of_Z 1.
Definition two : num := of_Z 2.
Definition half : num := of_Q (1 # 2).
Definition thousand : num := of_Z 1000.

(** ** Outcomes of the fallible and the looping parts *)

Inductive exn : Type :=
| ValueError
| TypeError
| IndexError
| ZeroDivisionError.

Inductive result (A : Type) : Type :=
| Ok (a : A)
| Raise (e : exn)
| OutOfFuel.

Arguments Ok {A} a.
Arguments Raise {A} e.
Arguments OutOfFuel {A}.

Definition bind {A B : Type} (c : result A) (k : A -> result B) : result B :=
  match c with
  | Ok a => k a
  | Raise e => Raise e
  | OutOfFuel => OutOfFuel
  end.

Notation "'let*' x ':=' c 'in' k" := (bind c (fun x => k))
  (at level 10, x pattern, c at level 100, k at level 200).

(** Python's [/] on two floats raises on a zero divisor. *)
Definition pydiv (x y : num) : result num :=
  match y with
  | Fin b => match (b ?= 0)%Qc with
             | Eq => Raise ZeroDivisionError
             | _ => Ok (x / y)%num
             end
  | _ => Ok (x / y)%num
  end.

(** A [while] loop run for at most [fuel] rounds of its body. *)
Fixpoint while_loop {S : Type} (fuel : nat) (cond : S -> bool)
  (body : S -> result S) (s : S) : result S :=
  if cond s then
    match fuel with
    | O => OutOfFuel
    | S k => let* s' := body s in while_loop k cond body s'
    end
  else Ok s.

(** ** Vectors and broadcasting *)

Definition vec : Type := list num.

Fixpoint zip_with (op : num -> num -> num) (a b : vec) : vec :=
  match a, b with
  | x :: a', y :: b' => op x y :: zip_with op a' b'
  | _, _ => []
  end.

Definition vadd : vec -> vec -> vec := zip_with add.
Definition vsub : vec -> vec -> vec := zip_with sub.
Definition vmul : vec -> vec -> vec := zip_with mul.
Definition vdiv : vec -> vec -> vec := zip_with npdiv.

(** scalar [*] array *)
Definition smul (c : num) (a : vec) : vec := map (mul c) a.

(** [np.dot] of two one-dimensional arrays *)
Definition dot (a b : vec) : num := fold_left add (vmul a b) zero.

(** A value that is either a Python scalar or a one-dimensional array: the
    mass matrix of [nuts6] is the scalar [1.0] when [estimate_mass] is off and
    a vector (the diagonal) when it is on. *)
Inductive ndval : Type :=
| Scalar (c : num)
| Diag (d : vec).

(** scalar [*] (scalar or array) *)
Definition scale (c : num) (m : ndval) : ndval :=
  match m with
  | Scalar x => Scalar (c * x)%num
  | Diag d => Diag (smul c d)
  end.

(** (scalar or array) [*] array, with NumPy's broadcasting of the scalar *)
Definition bmul (m : ndval) (a : vec) : vec :=
  match m with
  | Scalar x => smul x a
  | Diag d => vmul d a
  end.

(** The log-density and gradient oracle [f]. *)
Definition oracle : Type := vec -> num * vec.

(** ** [leapfrog] *)

Definition leapfrog (theta r grad : vec) (epsilon : num) (f : oracle)
  (inv_mass : ndval) : vec * vec * vec * num :=
  (* make half step in r *)
  let rprime := vadd r (smul (half * epsilon)%num grad) in
  (* make new step in theta *)
  let thetaprime := vadd theta (bmul (scale epsilon inv_mass) rprime) in
  (* compute new gradient *)
  let '(logpprime, gradprime) := f thetaprime in
  (* make half step in r again *)
  let rprime := vadd rprime (smul (half * epsilon)%num gradprime) in
  (thetaprime, rprime, gradprime, logpprime).

(** ** [stop_criterion] *)

Definition stop_criterion (thetaminus thetaplus rminus rplus : vec)
  (inv_mass : ndval) : bool :=
  let dtheta := vsub thetaplus thetaminus in
  (dot dtheta (bmul inv_mass rminus) >=? zero)%num
  && (dot dtheta (bmul inv_mass rplus) >=? zero)%num.

(** ** Buffers and loops *)

(** [buffer[i] = x]; the indices the source writes are always in range. *)
Fixpoint upd {A : Type} (i : nat) (x : A) (l : list A) : list A :=
  match l, i with
  | [], _ => []
  | _ :: l', O => x :: l'
  | y :: l', S i' => y :: upd i' x l'
  end.

(** A [for] loop over the indices [l]. *)
Fixpoint for_range {S : Type} (l : list nat) (body : nat -> S -> result S)
  (s : S) : result S :=
  match l with
  | [] => Ok s
  | m :: l' => let* s' := body m s in for_range l' body s'
  end.

(** An array as NumPy holds it: its shape and its elements in row-major
    order.  The rank is the length of the shape; a scalar has rank 0. *)
Record ndarray : Type := NDArray {
  shape : list nat;
  data : vec;
}.

(** [len(a)]: the first dimension; a rank 0 value has no length. *)
Definition len (a : ndarray) : result nat :=
  match shape a with
  | [] => Raise TypeError
  | d :: _ => Ok d
  end.

(** ** The two NumPy interfaces *)

(** [np.exp], [np.log], [np.sqrt] at the finite arguments where their value
    is not fixed by IEEE 754, and Python's [**].  The laws are the exact
    values the source relies on. *)
Class Libm : Type := {
  exp_fin : Qc -> num;
  log_pos : Qc -> num;
  sqrt_pos : Qc -> num;
  pow : num -> num -> num;
  exp_fin_zero : exp_fin 0 = one;
  log_two_positive : (zero <? log_pos (Q2Qc 2))%num = true;
  pow_two_one : pow two one = two;
  pow_two_minus_one : pow two (- one)%num = half;
}.

(** The global generator of [np.random]: every draw returns a value and the
    generator's next state. *)
Class RandomState : Type := {
  rng : Type;
  (* np.random.normal(0., 1., n) *)
  random_normal : nat -> rng -> vec * rng;
  (* np.random.uniform() *)
  random_uniform : rng -> num * rng;
  (* np.random.exponential(1, size=1) *)
  random_exponential : rng -> num * rng;
}.

Section Libm_functions.
Context {L : Libm}.

Definition exp (x : num) : num :=
  match x with
  | Fin q => exp_fin q
  | PInf => PInf
  | NInf => zero
  | NaN => NaN
  end.

Definition log (x : num) : num :=
  match x with
  | Fin q => match (q ?= 0)%Qc with
             | Gt => log_pos q
             | Eq => NInf
             | Lt => NaN
             end
  | PInf => PInf
  | _ => NaN
  end.

Definition sqrt (x : num) : num :=
  match x with
  | Fin q => match (q ?= 0)%Qc with
             | Gt => sqrt_pos q
             | Eq => zero
             | Lt => NaN
             end
  | PInf => PInf
  | _ => NaN
  end.

End Libm_functions.

(** ** [build_tree] *)

(** The thirteen values [build_tree] returns. *)
Record tree : Type := Tree {
  thetaminus : vec;
  rminus : vec;
  gradminus : vec;
  thetaplus : vec;
  rplus : vec;
  gradplus : vec;
  thetaprime : vec;
  gradprime : vec;
  logpprime : num;
  nprime : Z;
  sprime : Z;
  alphaprime : num;
  nalphaprime : Z;
}.

(** [float(nprime2) / max(float(int(nprime) + int(nprime2)), 1.)] *)
Definition subtree_weight (nprime nprime2 : Z) : result num :=
  pydiv (of_Z nprime2) (pymax (of_Z (nprime + nprime2)) one).

(** Python's truth value of an integer flag. *)
Definition truthy (s : Z) : bool := negb (s =? 0)%Z.

Section Sampler.
Context {L : Libm} {R : RandomState}.

(** The joint log-density of a point: log-density minus kinetic energy,
    [float(logp) - 0.5 * np.dot(inv_mass_chol * r, (inv_mass_chol * r).T)]. *)
Definition joint_of (logp : num) (inv_mass_chol : ndval) (r : vec) : num :=
  let invM_cholr := bmul inv_mass_chol r in
  (logp - half * dot invM_cholr invM_cholr)%num.

(** The depth [j] is a natural number: [nuts6] calls [build_tree] with the
    depths 0, 1, 2, ... and the recursion stops at [j == 0] (a negative depth
    would recurse without end).  [g] is the state of the random generator;
    the state after the call is returned with the tree. *)
Fixpoint build_tree (theta r grad : vec) (logu : num) (v : Z) (j : nat)
  (epsilon : num) (f : oracle) (joint0 : num) (inv_mass_chol inv_mass : ndval)
  (g : rng) : tree * rng :=
  match j with
  | O =>
      (* Base case: take a single leapfrog step in the direction v. *)
      let '(thetaprime, rprime, gradprime, logpprime) :=
        leapfrog theta r grad (of_Z v * epsilon)%num f inv_mass in
      let joint := joint_of logpprime inv_mass_chol rprime in
      (* Is the new point in the slice? *)
      let nprime := Z.b2z (logu <? joint)%num in
      (* Is the simulation wildly inaccurate? *)
      let sprime :=
        if isfinite joint then Z.b2z (logu - thousand <? joint)%num else 0%Z in
      (* Compute the acceptance probability. *)
      let alphaprime :=
        if negb (isfinite joint) then zero
        else pymin one (exp (joint - joint0)%num) in
      (Tree thetaprime rprime gradprime thetaprime rprime gradprime
            thetaprime gradprime logpprime nprime sprime alphaprime 1, g)
  | S j' =>
      (* Recursion: implicitly build the height j-1 left and right subtrees. *)
      let '(t, g) :=
        build_tree theta r grad logu v j' epsilon f joint0
                   inv_mass_chol inv_mass g in
      (* No need to keep going if the stopping criteria were met in the
         first subtree. *)
      if (sprime t =? 1)%Z then
        let '(t2, g) :=
          if (v =? -1)%Z then
            build_tree (thetaminus t) (rminus t) (gradminus t) logu v j'
                       epsilon f joint0 inv_mass_chol inv_mass g
          else
            build_tree (thetaplus t) (rplus t) (gradplus t) logu v j'
                       epsilon f joint0 inv_mass_chol inv_mass g in
        let thetaminus' := if (v =? -1)%Z then thetaminus t2 else thetaminus t in
        let rminus' := if (v =? -1)%Z then rminus t2 else rminus t in
        let gradminus' := if (v =? -1)%Z then gradminus t2 else gradminus t in
        let thetaplus' := if (v =? -1)%Z then thetaplus t else thetaplus t2 in
        let rplus' := if (v =? -1)%Z then rplus t else rplus t2 in
        let gradplus' := if (v =? -1)%Z then gradplus t else gradplus t2 in
        (* Choose which subtree to propagate a sample up from. *)
        let '(u, g) := random_uniform g in
        let pick2 :=
          match subtree_weight (nprime t) (nprime t2) with
          | Ok w => (u <? w)%num
          | _ => false
          end in
        let thetaprime' := if pick2 then thetaprime t2 else thetaprime t in
        let gradprime' := if pick2 then gradprime t2 else gradprime t in
        let logpprime' := if pick2 then logpprime t2 else logpprime t in
        (* Update the number of valid points. *)
        let nprime' := (nprime t + nprime t2)%Z in
        (* Update the stopping criterion. *)
        let sprime' :=
          Z.b2z (truthy (sprime t) && truthy (sprime t2)
                 && stop_criterion thetaminus' thetaplus' rminus' rplus' inv_mass) in
        (* Update the acceptance probability statistics. *)
        let alphaprime' := (alphaprime t + alphaprime t2)%num in
        let nalphaprime' := (nalphaprime t + nalphaprime t2)%Z in
        (Tree thetaminus' rminus' gradminus' thetaplus' rplus' gradplus'
              thetaprime' gradprime' logpprime' nprime' sprime'
              alphaprime' nalphaprime', g)
      else (t, g)
  end.

(** ** [find_reasonable_epsilon] *)

(** [float(b)] for a Python bool. *)
Definition float_of_bool (b : bool) : num := if b then one else zero.

(** [logpprime - logp0 - 0.5 * (np.dot(rprime, (inv_mass*rprime).T)
                                - np.dot(r0, (inv_mass*r0).T))] *)
Definition logacceptprob_of (logpprime logp0 : num) (rprime r0 : vec)
  (inv_mass : ndval) : num :=
  (logpprime - logp0
   - half * (dot rprime (bmul inv_mass rprime) - dot r0 (bmul inv_mass r0)))%num.

(** The first loop of [find_reasonable_epsilon]: halve [k] until the trial
    step gives finite values.  Its state is [(k, rprime, gradprime, logpprime)]. *)
Definition halving_cond (st : num * vec * vec * num) : bool :=
  let '(_, _, gradprime, logpprime) := st in
  negb (isfinite logpprime && forallb isfinite gradprime).

Definition halving_body (theta0 r0 grad0 : vec) (epsilon : num) (f : oracle)
  (inv_mass : ndval) (st : num * vec * vec * num)
  : result (num * vec * vec * num) :=
  let '(k, _, _, _) := st in
  let k := (k * half)%num in
  let '(_, rprime, gradprime, logpprime) :=
    leapfrog theta0 r0 grad0 (epsilon * k)%num f inv_mass in
  Ok (k, rprime, gradprime, logpprime).

(** The second loop: move [epsilon] by factors of two until the acceptance
    probability crosses one half.  Its state is
    [(epsilon, rprime, logpprime, logacceptprob)]. *)
Definition crossing_cond (a : num) (st : num * vec * num * num) : bool :=
  let '(_, _, _, logacceptprob) := st in
  (a * logacceptprob >? - a * log two)%num.

Definition crossing_body (theta0 r0 grad0 : vec) (logp0 : num) (f : oracle)
  (inv_mass : ndval) (a : num) (st : num * vec * num * num)
  : result (num * vec * num * num) :=
  let '(epsilon, _, _, _) := st in
  let epsilon := (epsilon * pow two a)%num in
  let '(_, rprime, _, logpprime) :=
    leapfrog theta0 r0 grad0 epsilon f inv_mass in
  let logacceptprob := logacceptprob_of logpprime logp0 rprime r0 inv_mass in
  Ok (epsilon, rprime, logpprime, logacceptprob).

Definition find_reasonable_epsilon (fuel : nat) (theta0 grad0 : vec)
  (logp0 : num) (f : oracle) (epsilon0 : num) (inv_mass : ndval) (g : rng)
  : result (num * rng) :=
  let epsilon := (one * epsilon0)%num in
  let '(r0, g) := random_normal (length theta0) g in
  (* Figure out what direction we should be moving epsilon. *)
  let '(_, rprime, gradprime, logpprime) :=
    leapfrog theta0 r0 grad0 epsilon f inv_mass in
  let* (k, rprime, _, logpprime) :=
    while_loop fuel halving_cond
      (halving_body theta0 r0 grad0 epsilon f inv_mass)
      (one, rprime, gradprime, logpprime) in
  let epsilon := (half * k * epsilon)%num in
  let logacceptprob := logacceptprob_of logpprime logp0 rprime r0 inv_mass in
  let a := (two * float_of_bool (exp logacceptprob >? half) - one)%num in
  (* Keep moving epsilon in that direction until acceptprob crosses 0.5. *)
  let* (epsilon, _, _, _) :=
    while_loop fuel (crossing_cond a)
      (crossing_body theta0 r0 grad0 logp0 f inv_mass a)
      (epsilon, rprime, logpprime, logacceptprob) in
  Ok (epsilon, g).

(** ** [nuts6] *)

(** The variables of [nuts6] that live across outer iterations. *)
Record chain : Type := Chain {
  samples : list vec;
  lnprob : list num;
  logp : num;
  grad : vec;
  epsilon : num;
  logepsilon : num;
  logepsilonbar : num;
  Hbar : num;
  m_adapt : Z;
  diag_mass_avg : vec;
  diag_mass_N : Z;
  mass_chol : ndval;
  inv_mass : ndval;
  inv_mass_chol : ndval;
  gen : rng;
}.

(** The variables the doubling loop [while (s == 1)] reads and writes.
    [st_s] is the truth of [s == 1]; [st_alpha] and [st_nalpha] hold the
    values of the last [build_tree] call (the loop body runs at least once,
    so their initial content is never read). *)
Record doubling : Type := Doubling {
  st_thetaminus : vec;
  st_rminus : vec;
  st_gradminus : vec;
  st_thetaplus : vec;
  st_rplus : vec;
  st_gradplus : vec;
  st_j : nat;
  st_n : Z;
  st_s : bool;
  st_samples : list vec;
  st_lnprob : list num;
  st_logp : num;
  st_grad : vec;
  st_alpha : num;
  st_nalpha : Z;
  st_gen : rng;
}.

(** One round of the doubling loop, for outer iteration [m]. *)
Definition doubling_round (m : nat) (logu eps : num) (f : oracle)
  (joint : num) (invM_chol invM : ndval) (max_tree_depth : Z) (st : doubling)
  : result doubling :=
  (* Choose a direction. -1 = backwards, 1 = forwards. *)
  let '(u, g) := random_uniform (st_gen st) in
  let v := (2 * Z.b2z (u <? half)%num - 1)%Z in
  (* Double the size of the tree. *)
  let '(t, g) :=
    if (v =? -1)%Z then
      build_tree (st_thetaminus st) (st_rminus st) (st_gradminus st) logu v
                 (st_j st) eps f joint invM_chol invM g
    else
      build_tree (st_thetaplus st) (st_rplus st) (st_gradplus st) logu v
                 (st_j st) eps f joint invM_chol invM g in
  let thetaminus' := if (v =? -1)%Z then thetaminus t else st_thetaminus st in
  let rminus' := if (v =? -1)%Z then rminus t else st_rminus st in
  let gradminus' := if (v =? -1)%Z then gradminus t else st_gradminus st in
  let thetaplus' := if (v =? -1)%Z then st_thetaplus st else thetaplus t in
  let rplus' := if (v =? -1)%Z then st_rplus st else rplus t in
  let gradplus' := if (v =? -1)%Z then st_gradplus st else gradplus t in
  (* Use Metropolis-Hastings to decide whether or not to move to a point
     from the half-tree we just generated. *)
  let* ratio := pydiv (of_Z (nprime t)) (of_Z (st_n st)) in
  let _tmp := pymin one ratio in
  let '(accept, g) :=
    if (sprime t =? 1)%Z then
      let '(u, g) := random_uniform g in ((u <? _tmp)%num, g)
    else (false, g) in
  let samples' :=
    if accept then upd m (thetaprime t) (st_samples st) else st_samples st in
  let lnprob' :=
    if accept then upd m (logpprime t) (st_lnprob st) else st_lnprob st in
  let logp' := if accept then logpprime t else st_logp st in
  let grad' := if accept then gradprime t else st_grad st in
  (* Update number of valid points we've seen. *)
  let n' := (st_n st + nprime t)%Z in
  (* Increment depth. *)
  let j' := S (st_j st) in
  (* Decide if it's time to stop. *)
  let s' :=
    truthy (sprime t)
    && stop_criterion thetaminus' thetaplus' rminus' rplus' invM
    && (Z.of_nat j' <? max_tree_depth)%Z in
  Ok (Doubling thetaminus' rminus' gradminus' thetaplus' rplus' gradplus'
               j' n' s' samples' lnprob' logp' grad'
               (alphaprime t) (nalphaprime t) g).

(** The state the doubling loop of iteration [m] starts from. *)
Definition doubling_init (m : nat) (c : chain) (r0 : vec) (g : rng) : doubling :=
  (* if all fails, the next sample will be the previous one *)
  let samples' := upd m (nth (m - 1) (samples c) []) (samples c) in
  let lnprob' := upd m (nth (m - 1) (lnprob c) NaN) (lnprob c) in
  (* initialize the tree *)
  let theta := nth (m - 1) samples' [] in
  Doubling theta r0 (grad c) theta r0 (grad c)
           0 (* initial height j = 0 *)
           1 (* Initially the only valid point is the initial point. *)
           true (* Main loop: will keep going until s == 0. *)
           samples' lnprob' (logp c) (grad c) zero 1 g.

Definition doubling_loop (fuel m : nat) (logu eps : num) (f : oracle)
  (joint : num) (invM_chol invM : ndval) (max_tree_depth : Z) (st : doubling)
  : result doubling :=
  while_loop fuel st_s
    (doubling_round m logu eps f joint invM_chol invM max_tree_depth) st.

(** The constants of the dual averaging algorithm. *)
Definition gamma : num := of_Q (1 # 20).
Definition t0 : Z := 10.
Definition kappa : num := of_Q (3 # 4).

Definition vsquare (a : vec) : vec := map (fun x => x * x)%num a.

(** [np.sqrt(diag_mass_avg)], [1.0/diag_mass_avg], [1.0/mass_chol] *)
Definition mass_chol_of (diag : vec) : vec := map sqrt diag.
Definition inverse (a : vec) : vec := map (npdiv one) a.

(** The end of an outer iteration: adaptation of [epsilon] and of the mass
    matrix while [m <= Madapt].  [abar] is [alpha / float(nalpha)]. *)
Definition adapt (Madapt : nat) (delta mu : num) (estimate_mass : bool)
  (m : nat) (abar : num) (c : chain) : result chain :=
  if (m <=? Madapt)%nat then
    (* Do adaptation of epsilon if we're still doing burn-in. *)
    let* eta := pydiv one (of_Z (m_adapt c + t0)) in
    let Hbar' := ((one - eta) * Hbar c + eta * (delta - abar))%num in
    let logepsilon' := (mu - sqrt (of_Z (m_adapt c)) / gamma * Hbar')%num in
    let eta := pow (of_Z (m_adapt c)) (- kappa)%num in
    let logepsilonbar' :=
      ((one - eta) * logepsilonbar c + eta * logepsilon')%num in
    let m_adapt' := (m_adapt c + 1)%Z in
    (* update mass matrix approximation *)
    let diag_mass_N' :=
      if estimate_mass then (diag_mass_N c + 1)%Z else diag_mass_N c in
    let diag_mass_avg' :=
      if estimate_mass then
        vadd (diag_mass_avg c)
             (map (fun x => x / of_Z diag_mass_N')%num
                  (vsub (vsquare (grad c)) (diag_mass_avg c)))
      else diag_mass_avg c in
    let mass_chol' :=
      if estimate_mass then Diag (mass_chol_of diag_mass_avg') else mass_chol c in
    let inv_mass' :=
      if estimate_mass then Diag (inverse diag_mass_avg') else inv_mass c in
    let inv_mass_chol' :=
      if estimate_mass then Diag (inverse (mass_chol_of diag_mass_avg'))
      else inv_mass_chol c in
    (* Reinitialize dual averaging algorithm. *)
    let restart :=
      (Z.of_nat m =? Z.of_nat Madapt / 4)%Z
      || (Z.of_nat m =? 3 * Z.of_nat Madapt / 4)%Z in
    let logepsilon' := if restart then logepsilonbar' else logepsilon' in
    let logepsilonbar' := if restart then zero else logepsilonbar' in
    let Hbar' := if restart then zero else Hbar' in
    let m_adapt' := if restart then 1%Z else m_adapt' in
    (* Reinitialize mass matrix estimation *)
    let diag_mass_N' :=
      if (Z.of_nat m =? Z.of_nat Madapt / 2)%Z then 1%Z else diag_mass_N' in
    Ok (Chain (samples c) (lnprob c) (logp c) (grad c) (exp logepsilon')
              logepsilon' logepsilonbar' Hbar' m_adapt' diag_mass_avg'
              diag_mass_N' mass_chol' inv_mass' inv_mass_chol' (gen c))
  else
    let logepsilon' := logepsilonbar c in
    Ok (Chain (samples c) (lnprob c) (logp c) (grad c) (exp logepsilon')
              logepsilon' (logepsilonbar c) (Hbar c) (m_adapt c)
              (diag_mass_avg c) (diag_mass_N c) (mass_chol c) (inv_mass c)
              (inv_mass_chol c) (gen c)).

(** The body of [for m in range(1, M + Madapt)]. *)
Definition iteration (fuel Madapt D : nat) (f : oracle) (delta mu : num)
  (max_tree_depth : Z) (estimate_mass : bool) (m : nat) (c : chain)
  : result chain :=
  (* Resample momenta. *)
  let '(invM_cholr0, g) := random_normal D (gen c) in
  let r0 := bmul (mass_chol c) invM_cholr0 in
  (* joint lnp of theta and momentum r *)
  let joint := (logp c - half * dot invM_cholr0 invM_cholr0)%num in
  (* Resample u ~ uniform([0, exp(joint)]). *)
  let '(e, g) := random_exponential g in
  let logu := (joint - e)%num in
  let* st :=
    doubling_loop fuel m logu (epsilon c) f joint (inv_mass_chol c)
                  (inv_mass c) max_tree_depth (doubling_init m c r0 g) in
  (* the progress line prints alpha / float(nalpha) *)
  let* abar := pydiv (st_alpha st) (of_Z (st_nalpha st)) in
  adapt Madapt delta mu estimate_mass m abar
    (Chain (st_samples st) (st_lnprob st) (st_logp st) (st_grad st)
           (epsilon c) (logepsilon c) (logepsilonbar c) (Hbar c) (m_adapt c)
           (diag_mass_avg c) (diag_mass_N c) (mass_chol c) (inv_mass c)
           (inv_mass_chol c) (st_gen st)).

(** The initial mass matrix: [(diag_mass_avg, mass_chol, inv_mass,
    inv_mass_chol)]. *)
Definition initial_mass (estimate_mass : bool) (grad : vec)
  : vec * ndval * ndval * ndval :=
  if estimate_mass then
    let alpha := of_Q (4 # 5) in
    let diag_mass_avg :=
      map (fun x => x + (one - alpha))%num (smul alpha (vsquare grad)) in
    (diag_mass_avg, Diag (mass_chol_of diag_mass_avg),
     Diag (inverse diag_mass_avg), Diag (inverse (mass_chol_of diag_mass_avg)))
  else ([], Scalar one, Scalar one, Scalar one).

(** What [nuts6] returns: [samples, lnprob, (epsilon, inv_mass)]. *)
Definition output : Type := list vec * list num * (num * ndval).

(** [M] and [Madapt] are counts, hence natural numbers; [theta0] is any
    array; [uninit] stands for the unspecified content of [np.empty]; [fuel]
    bounds the rounds of each [while] loop; the progress line written to
    [log_file] is left out but for the division it evaluates. *)
Definition nuts6 (uninit : num) (fuel : nat) (f : oracle) (M Madapt : nat)
  (theta0 : ndarray) (delta : num) (max_tree_depth : Z) (epsilon0 : num)
  (estimate_mass : bool) (g : rng) : result (output * rng) :=
  if (1 <? length (shape theta0))%nat then Raise ValueError
  else
    let* D := len theta0 in
    let samples0 := repeat (repeat uninit D) (M + Madapt) in
    let lnprob0 := repeat uninit (M + Madapt) in
    let '(logp0, grad0) := f (data theta0) in
    if (M + Madapt =? 0)%nat then Raise IndexError
    else
      let samples0 := upd 0 (data theta0) samples0 in
      let lnprob0 := upd 0 logp0 lnprob0 in
      let '(diag0, mass_chol0, inv_mass0, inv_mass_chol0) :=
        initial_mass estimate_mass grad0 in
      (* Choose a reasonable first epsilon by a simple heuristic. *)
      let* (epsilon1, g) :=
        find_reasonable_epsilon fuel (data theta0) grad0 logp0 f epsilon0
                                inv_mass0 g in
      let logepsilon1 := log epsilon1 in
      (* Parameters to the dual averaging algorithm. *)
      let mu := log (of_Z 10 * epsilon1)%num in
      (* Initialize dual averaging algorithm. *)
      let* c :=
        for_range (seq 1 (M + Madapt - 1))
          (iteration fuel Madapt D f delta mu max_tree_depth estimate_mass)
          (Chain samples0 lnprob0 logp0 grad0 epsilon1 logepsilon1 zero zero 1
                 diag0 1 mass_chol0 inv_mass0 inv_mass_chol0 g) in
      Ok (skipn Madapt (samples c), skipn Madapt (lnprob c),
          (epsilon c, inv_mass c), gen c).

End Sampler.

(** ** The example target of [test_nuts6] *)

(** [correlated_normal], the log-density (up to its constant) and gradient
    of a two-dimensional Gaussian given by its precision matrix [A].
    [np.dot(theta, A)] is the vector of the products of [theta] with the
    columns of [A], listed here. *)
Definition A_columns : list vec :=
  [[of_Q (50251256 # 1000000); of_Q (- 24874372 # 1000000)];
   [of_Q (- 24874372 # 1000000); of_Q (12562814 # 1000000)]].

Definition correlated_normal : oracle := fun theta =>
  let grad := map neg (map (dot theta) A_columns) in
  let logp := (half * dot grad theta)%num in
  (logp, grad).

(** ** Reference instances, to run the model *)

(** Rational truncations of the three transcendental functions: the Taylor
    polynomial of [exp], the area-tangent series of [log], Heron's iteration
    for [sqrt].  They stand in for NumPy's; the theorems below hold for
    every [Libm]. *)
Fixpoint exp_series (n : nat) (q term : Qc) (k : Z) : Qc :=
  match n with
  | O => term
  | S n' => (term + exp_series n' q (term * q / Q2Qc (inject_Z k)) (k + 1))%Qc
  end.

Fixpoint atanh_series (n : nat) (y2 term : Qc) (k : Z) : Qc :=
  match n with
  | O => (term / Q2Qc (inject_Z k))%Qc
  | S n' => (term / Q2Qc (inject_Z k)
             + atanh_series n' y2 (term * y2) (k + 2))%Qc
  end.

Fixpoint heron (n : nat) (q x : Qc) : Qc :=
  match n with
  | O => x
  | S n' => heron n' q ((x + q / x) / Q2Qc 2)%Qc
  end.

Definition exp_ref (q : Qc) : num := Fin (exp_series 12 q 1 1).

Definition log_ref (q : Qc) : num :=
  let y := ((q - 1) / (q + 1))%Qc in
  Fin (Q2Qc 2 * atanh_series 12 (y * y) y 1)%Qc.

Definition sqrt_ref (q : Qc) : num := Fin (heron 6 q ((1 + q) / Q2Qc 2)%Qc).

Definition Qc_eqb (a b : Qc) : bool :=
  match (a ?= b)%Qc with Eq => true | _ => false end.

Definition pow_ref (x y : num) : num :=
  match x, y with
  | Fin a, Fin b =>
      if Qc_eqb b 1 then x
      else if Qc_eqb b (-(1)) then (one / x)%num
      else if Qc_eqb a 1 then one
      else match (a ?= 0)%Qc with
           | Gt => match log_ref a with
                   | Fin l => exp_ref (b * l)
                   | _ => NaN
                   end
           | _ => NaN
           end
  | _, _ => NaN
  end.

(** A generator that replays a tape of draws, and returns zeros once the tape
    is exhausted. *)
Definition tape_normal (n : nat) (g : list num) : vec * list num :=
  (firstn n g ++ repeat zero (n - length g), skipn n g).

Definition tape_draw (g : list num) : num * list num := (hd zero g, tl g).

(** Equality of two computed values, up to the proofs that their rationals
    are in lowest terms. *)
Ltac canon :=
  vm_compute;
  repeat first [ reflexivity | apply Qc_is_canon; reflexivity | f_equal ].

#[export] Instance libm_ref : Libm := {|
  exp_fin := exp_ref;
  log_pos := log_ref;
  sqrt_pos := sqrt_ref;
  pow := pow_ref;
  exp_fin_zero := ltac:(canon);
  log_two_positive := ltac:(canon);
  pow_two_one := ltac:(canon);
  pow_two_minus_one := ltac:(canon);
|}.

#[export] Instance tape : RandomState :=
  Build_RandomState (list num) tape_normal tape_draw tape_draw.

(** A log-density that is flat on the box [-1 <= x_i <= 1] and minus infinity
    outside of it. *)
Definition box_oracle : oracle := fun theta =>
  (if forallb (fun x => leb (- one)%num x && leb x one) theta
   then zero else NInf,
   map (fun _ => zero) theta).

(** A log-density that is plus infinity everywhere. *)
Definition inf_oracle : oracle := fun theta => (PInf, map (fun _ => zero) theta).

(** A log-density that is not a number at the origin, and flat elsewhere. *)
Definition hole_oracle : oracle := fun theta =>
  (if forallb (fun x => leb x zero && leb zero x) theta then NaN else zero,
   map (fun _ => zero) theta).

(** ** Concrete inputs *)

Open Scope nat_scope.

Definition quarter : num := of_Q (1 # 4).

(** The draws of the run: the momentum of the step-size search, then for
    iteration 1 the momentum, the slice level, the direction, the
    Metropolis draw. *)
Definition demo_tape : list num := [one; quarter; one; quarter; zero].

(** The initial position [[0.]]. *)
Definition demo_theta0 : ndarray := NDArray [1] [zero].

(** [nuts6(box_oracle, 1, Madapt, [0.], delta=0.6, max_tree_depth,
    epsilon0=1.0, estimate_mass=False)] on that tape.  The step-size search
    ends with [epsilon = 2]: the flat log-density gives [logacceptprob = 0]
    until the trial step leaves the box, and the run uses of the
    transcendental functions only [exp(0) = 1], [log(2) > 0] and
    [2 ** 1 = 2] (their other values reach the returned step size alone). *)
Definition demo_run {L : Libm} (Madapt : nat) (max_tree_depth : Z)
  : result (output * list num) :=
  @nuts6 L tape NaN 10 box_oracle 1 Madapt demo_theta0 (of_Q (3 # 5))
         max_tree_depth one false demo_tape.

(** The variables of [nuts6] that the doubling loop of iteration 1 of that
    run reads (the adaptation state, which the loop does not read, is left
    at zero), with the momentum [r0 = [1/4]] drawn and [joint] and [logu] as
    computed there. *)
Definition demo_chain : @chain tape :=
  Chain [[zero]; [zero]] [zero; zero] zero [zero] two zero zero zero 1 [] 1
        (Scalar one) (Scalar one) (Scalar one) [].

Definition demo_joint : num := of_Q (- 1 # 32).
Definition demo_logu : num := of_Q (- 33 # 32).

(** The doubling loop of iteration 1, run for at most [fuel] rounds. *)
Definition demo_loop {L : Libm} (fuel : nat) (max_tree_depth : Z)
  : result (@doubling tape) :=
  @doubling_loop L tape fuel 1 demo_logu two box_oracle demo_joint
    (Scalar one) (Scalar one) max_tree_depth
    (@doubling_init tape 1 demo_chain [quarter] [quarter; zero]).

(** The subtree of depth [j] that the doubling loop of iteration 1 of that
    run builds forwards from [[0.]] with momentum [[1/4]]. *)
Definition demo_tree (j : nat) : tree * list num :=
  @build_tree libm_ref tape [zero] [quarter] [zero] demo_logu 1 j two
    box_oracle demo_joint (Scalar one) (Scalar one) [quarter; zero].

(** The variables of [nuts6] at the start of iteration 1 of that run, with
    the draws of the iteration still on the tape. *)
Definition demo_chain_start : @chain tape :=
  Chain [[zero]; [zero]] [zero; zero] zero [zero] two zero zero zero 1 [] 1
        (Scalar one) (Scalar one) (Scalar one) [quarter; one; quarter; zero].

(** ** Notions used to state the properties *)

(** Coordinate [i] of a vector, and of the diagonal of the mass matrix (a
    scalar mass is the same on every coordinate). *)
Definition coord (i : nat) (a : vec) : num := nth i a NaN.

Definition mass_at (m : ndval) (i : nat) : num :=
  match m with
  | Scalar c => c
  | Diag d => coord i d
  end.

(** The mass matrix fits vectors of dimension [D]. *)
Definition mass_dim (D : nat) (m : ndval) : Prop :=
  match m with
  | Scalar _ => True
  | Diag d => length d = D
  end.

(** A vector of [D] real numbers; a mass matrix of real numbers. *)
Definition finite_vec (D : nat) (a : vec) : Prop :=
  length a = D /\ forallb isfinite a = true.

Definition finite_mass (D : nat) (m : ndval) : Prop :=
  match m with
  | Scalar c => isfinite c = true
  | Diag d => finite_vec D d
  end.

(** The momenta of a trajectory run backwards. *)
Definition vneg (a : vec) : vec := map neg a.

(** The only exception a computation may end with is a division by zero:
    it raises neither the input error nor a type or index error. *)
Definition arithmetic_only {A : Type} (r : result A) : Prop :=
  match r with
  | Raise e => e = ZeroDivisionError
  | _ => True
  end.

(** A finite, strictly positive number. *)
Definition is_positive (x : num) : bool := isfinite x && (zero <? x)%num.

(** A slice level no point can reach: [logu < joint] is false for every
    [joint]. *)
Definition unreachable (logu : num) : Prop := logu = NaN \/ logu = PInf.

(** Every log-density of the first [k] rows is the oracle's at the sample of
    the same row. *)
Definition rows_agree (f : oracle) (k : nat) (rows : list vec)
  (values : list num) : Prop :=
  length values = length rows
  /\ forall i, i < k -> i < length rows ->
       nth i values NaN = fst (f (nth i rows [])).

(** The first [k] entries of a buffer all satisfy [P]. *)
Definition rows_hold (P : num -> Prop) (k : nat) (values : list num) : Prop :=
  forall i, i < k -> i < length values -> P (nth i values NaN).

(** The first [k] rows of a buffer are all [x]. *)
Definition rows_are {A : Type} (x d : A) (k : nat) (l : list A) : Prop :=
  forall i, i < k -> i < length l -> nth i l d = x.

(** Two buffers with the same rows but, possibly, row [m]. *)
Definition same_but {A : Type} (m : nat) (d : A) (l l' : list A) : Prop :=
  length l' = length l /\ forall i, i <> m -> nth i l' d = nth i l d.

Section Notions.
Context {L : Libm} {R : RandomState}.

(** The second subtree of a doubling inside [build_tree]: it is built from
    the endpoint of the first subtree [t] that lies in direction [v]. *)
Definition second_subtree (t : tree) (logu : num) (v : Z) (j : nat)
  (epsilon : num) (f : oracle) (joint0 : num) (inv_mass_chol inv_mass : ndval)
  (g : rng) : tree * rng :=
  if (v =? -1)%Z then
    build_tree (thetaminus t) (rminus t) (gradminus t) logu v j
               epsilon f joint0 inv_mass_chol inv_mass g
  else
    build_tree (thetaplus t) (rplus t) (gradplus t) logu v j
               epsilon f joint0 inv_mass_chol inv_mass g.

(** The loop invariant of [while (s == 1)]: the count of valid points and the
    count of acceptance statistics are positive, and the loop goes on only
    before its first round or below the depth bound. *)
Record doubling_inv (max_tree_depth : Z) (st : doubling) : Prop := {
  inv_count : (1 <= st_n st)%Z;
  inv_nalpha : (1 <= st_nalpha st)%Z;
  inv_depth :
    st_s st = true ->
    st_j st = 0 \/ (Z.of_nat (st_j st) < max_tree_depth)%Z;
}.

(** The states the doubling loop of one outer iteration goes through when it
    starts from [st0]: [st0] itself, and the state after each round that the
    loop condition lets run. *)
Inductive visited (m : nat) (logu eps : num) (f : oracle) (joint : num)
  (invM_chol invM : ndval) (max_tree_depth : Z) (st0 : doubling)
  : doubling -> Prop :=
| visited_first :
    visited m logu eps f joint invM_chol invM max_tree_depth st0 st0
| visited_next st st' :
    visited m logu eps f joint invM_chol invM max_tree_depth st0 st ->
    st_s st = true ->
    doubling_round m logu eps f joint invM_chol invM max_tree_depth st = Ok st' ->
    visited m logu eps f joint invM_chol invM max_tree_depth st0 st'.

(** What the outer loop of [nuts6] keeps true of its variables: the buffer
    has [N] rows, its first row is [theta0], and the adaptation counter is
    positive. *)
Record chain_inv (N : nat) (theta0 : vec) (c : chain) : Prop := {
  inv_rows : length (samples c) = N;
  inv_first : hd_error (samples c) = Some theta0;
  inv_m_adapt : (1 <= m_adapt c)%Z;
}.

(** What a round of the doubling loop that does not raise leaves behind, in
    terms of the subtree [t] it built and of whether the round moved the
    chain to the candidate of [t]. *)
Record round_of (m : nat) (t : tree) (accept : bool) (max_tree_depth : Z)
  (st st' : doubling) : Prop := {
  round_j : st_j st' = S (st_j st);
  round_n : st_n st' = (st_n st + nprime t)%Z;
  round_alpha : st_alpha st' = alphaprime t;
  round_nalpha : st_nalpha st' = nalphaprime t;
  round_samples :
    st_samples st'
    = if accept then upd m (thetaprime t) (st_samples st) else st_samples st;
  round_lnprob :
    st_lnprob st'
    = if accept then upd m (logpprime t) (st_lnprob st) else st_lnprob st;
  round_logp : st_logp st' = if accept then logpprime t else st_logp st;
  round_grad : st_grad st' = if accept then gradprime t else st_grad st;
  round_accept : accept = true -> sprime t = 1%Z;
  round_s :
    st_s st' = true ->
    sprime t <> 0%Z /\ (Z.of_nat (st_j st') < max_tree_depth)%Z;
}.

(** The variables of [nuts6] when its outer loop starts: the two buffers of
    [N] rows with [theta0] and its log-density in row 0, the step size [eps1]
    that the search returned with the generator [g1], [mu], the initial
    state of the dual averaging and the initial mass matrix. *)
Definition first_chain (uninit : num) (N D : nat) (f : oracle) (theta0 : vec)
  (estimate_mass : bool) (eps1 : num) (g1 : rng) : chain :=
  let '(diag0, mass_chol0, inv_mass0, inv_mass_chol0) :=
    initial_mass estimate_mass (snd (f theta0)) in
  Chain (upd 0 theta0 (repeat (repeat uninit D) N))
        (upd 0 (fst (f theta0)) (repeat uninit N))
        (fst (f theta0)) (snd (f theta0)) eps1 (log eps1) zero zero 1
        diag0 1 mass_chol0 inv_mass0 inv_mass_chol0 g1.

(** What the outer loop keeps true of the mass matrix when it estimates it:
    the running diagonal is positive, the inverse mass matrix is its
    inverse, the number of averaged gradients is positive, and the current
    gradient is real. *)
Record mass_inv (c : chain) : Prop := {
  mass_diag : forallb is_positive (diag_mass_avg c) = true;
  mass_inverse : inv_mass c = Diag (inverse (diag_mass_avg c));
  mass_count : (1 <= diag_mass_N c)%Z;
  mass_grad : forallb isfinite (grad c) = true;
}.

End Notions.

(** * Properties *)

(** ** Arithmetic of [num] *)

Lemma Qccompare_opp_0 (a : Qc) : (- a ?= 0)%Qc = CompOpp (a ?= 0)%Qc.
Proof.
  unfold Qccompare. change (this (- a)%Qc) with (Qred (- this a)).
  rewrite Qred_correct.
  change (this 0%Qc) with (0 # 1)%Q.
  destruct a as [[n d] H]; simpl. unfold Qcompare; simpl.
  rewrite !Z.mul_1_r. destruct n; reflexivity.
Qed.

Lemma neg_involutive x : (- - x)%num = x.
Proof. destruct x; simpl; try reflexivity; f_equal; ring. Qed.

Lemma sub_antisym a b : (a - b)%num = (- (b - a))%num.
Proof. destruct a, b; simpl; try reflexivity. f_equal; ring. Qed.

Lemma signed_inf_opp c : signed_inf (CompOpp c) = (- signed_inf c)%num.
Proof. destruct c; reflexivity. Qed.

Lemma mul_neg_r m x : (m * - x)%num = (- (m * x))%num.
Proof.
  destruct m, x; simpl;
    rewrite ?Qccompare_opp_0, ?signed_inf_opp, ?CompOpp_involutive,
      ?neg_involutive; try reflexivity.
  f_equal; ring.
Qed.

Lemma mul_neg_l m x : (- m * x)%num = (- (m * x))%num.
Proof.
  destruct m, x; simpl;
    rewrite ?Qccompare_opp_0, ?signed_inf_opp, ?CompOpp_involutive,
      ?neg_involutive; try reflexivity.
  f_equal; ring.
Qed.

Lemma of_Z_compare_zero z : z <> 0%Z -> (Q2Qc (inject_Z z) ?= 0)%Qc <> Eq.
Proof.
  intros Hz E. apply Qceq_alt in E. apply Hz.
  change 0%Qc with (Q2Qc (inject_Z 0)) in E.
  apply Q2Qc_eq_iff in E. unfold Qeq in E. simpl in E. lia.
Qed.

(** Python's division by a non-zero integer count never raises. *)
Lemma pydiv_of_Z x z : z <> 0%Z -> pydiv x (of_Z z) = Ok (x / of_Z z)%num.
Proof.
  intros Hz. unfold pydiv, of_Z, of_Q.
  pose proof (of_Z_compare_zero z Hz).
  destruct (Q2Qc (inject_Z z) ?= 0)%Qc; congruence.
Qed.

Lemma b2z_eq_1 b : Z.b2z b = 1%Z <-> b = true.
Proof. destruct b; simpl; split; intros; auto; discriminate. Qed.

(** Real numbers stay real under the two updates of a leapfrog step, and a
    step forwards followed by a step backwards cancels. *)
Ltac finite_cases :=
  repeat match goal with
         | H : isfinite ?x = true |- _ =>
             destruct x; simpl in H; try discriminate H; clear H
         end.

Lemma half_steps_cancel p e y :
  isfinite p = true -> isfinite e = true -> isfinite y = true ->
  (p + half * e * y + half * - e * y)%num = p.
Proof. intros; finite_cases. simpl. f_equal. ring. Qed.

Lemma full_steps_cancel t e m p :
  isfinite t = true -> isfinite e = true -> isfinite m = true ->
  isfinite p = true ->
  (t + e * m * p + - e * m * p)%num = t.
Proof. intros; finite_cases. simpl. f_equal. ring. Qed.

Lemma finite_half_step p e y :
  isfinite p = true -> isfinite e = true -> isfinite y = true ->
  isfinite (p + half * e * y)%num = true.
Proof. intros; finite_cases. reflexivity. Qed.

Lemma finite_full_step t e m p :
  isfinite t = true -> isfinite e = true -> isfinite m = true ->
  isfinite p = true -> isfinite (t + e * m * p)%num = true.
Proof. intros; finite_cases. reflexivity. Qed.

(** ** Vectors, coordinate by coordinate *)

Lemma length_zip_with op a b :
  length (zip_with op a b) = Nat.min (length a) (length b).
Proof. revert b; induction a; intros [|]; simpl; auto. Qed.

Lemma coord_zip_with op a b i :
  i < length a -> i < length b ->
  coord i (zip_with op a b) = op (coord i a) (coord i b).
Proof.
  unfold coord. revert b i.
  induction a as [| x a IH]; intros [| y b] [| i]; simpl; intros;
    try lia; auto.
  apply IH; lia.
Qed.

Lemma coord_map (h : num -> num) a i :
  i < length a -> coord i (map h a) = h (coord i a).
Proof.
  unfold coord. revert i.
  induction a as [| x a IH]; intros [| i]; simpl; intros; try lia; auto.
  apply IH; lia.
Qed.

Lemma vec_ext (a b : vec) :
  length a = length b ->
  (forall i, i < length a -> coord i a = coord i b) -> a = b.
Proof. intros Hl H. apply (nth_ext a b NaN NaN Hl H). Qed.

Lemma length_smul c a : length (smul c a) = length a.
Proof. apply length_map. Qed.

Lemma length_vadd D a b :
  length a = D -> length b = D -> length (vadd a b) = D.
Proof. intros. unfold vadd. rewrite length_zip_with. lia. Qed.

Lemma mass_dim_scale D c m : mass_dim D m -> mass_dim D (scale c m).
Proof. destruct m; simpl; auto. unfold smul. now rewrite length_map. Qed.

Lemma length_bmul D m a :
  mass_dim D m -> length a = D -> length (bmul m a) = D.
Proof.
  destruct m; simpl; intros Hm Ha.
  - unfold smul. now rewrite length_map.
  - unfold vmul. rewrite length_zip_with. lia.
Qed.

Lemma coord_bmul D m a i :
  mass_dim D m -> length a = D -> i < D ->
  coord i (bmul m a) = (mass_at m i * coord i a)%num.
Proof.
  destruct m; simpl; intros Hm Ha Hi.
  - unfold smul. apply coord_map. lia.
  - unfold vmul. apply coord_zip_with; lia.
Qed.

Lemma mass_at_scale D c m i :
  mass_dim D m -> i < D -> mass_at (scale c m) i = (c * mass_at m i)%num.
Proof.
  destruct m; simpl; intros Hm Hi; auto.
  unfold smul. apply coord_map. lia.
Qed.

Lemma finite_coord D a i :
  finite_vec D a -> i < D -> isfinite (coord i a) = true.
Proof.
  intros [Hl Hf] Hi. rewrite forallb_forall in Hf. apply Hf.
  unfold coord. apply nth_In. lia.
Qed.

Lemma finite_vec_intro D a :
  length a = D -> (forall i, i < D -> isfinite (coord i a) = true) ->
  finite_vec D a.
Proof.
  intros Hl H. split; auto. apply forallb_forall. intros x Hx.
  destruct (In_nth a x NaN Hx) as (i & Hi & <-). apply H. lia.
Qed.

Lemma finite_mass_at D m i :
  finite_mass D m -> i < D -> isfinite (mass_at m i) = true.
Proof. destruct m; simpl; auto. intros; eapply finite_coord; eauto. Qed.

Lemma finite_mass_dim D m : finite_mass D m -> mass_dim D m.
Proof. destruct m; simpl; auto. now intros []. Qed.

Lemma length_upd {A} i (x : A) l : length (upd i x l) = length l.
Proof.
  revert i; induction l as [| y l IH]; intros [| i]; simpl; auto.
Qed.

Lemma hd_upd {A} i (x : A) l : 1 <= i -> hd_error (upd i x l) = hd_error l.
Proof. destruct l, i; simpl; auto; lia. Qed.

(** ** [leapfrog] *)

Lemma leapfrog_eq theta r grad epsilon (f : oracle) inv_mass :
  leapfrog theta r grad epsilon f inv_mass
  = let r_half := vadd r (smul (half * epsilon)%num grad) in
    let thetaprime := vadd theta (bmul (scale epsilon inv_mass) r_half) in
    (thetaprime,
     vadd r_half (smul (half * epsilon)%num (snd (f thetaprime))),
     snd (f thetaprime), fst (f thetaprime)).
Proof. unfold leapfrog. cbv zeta. now destruct (f _). Qed.

Lemma coord_half_step D r c g i :
  length r = D -> length g = D -> i < D ->
  coord i (vadd r (smul c g)) = (coord i r + c * coord i g)%num.
Proof.
  intros Hr Hg Hi. unfold vadd.
  rewrite coord_zip_with by (rewrite ?length_smul; lia).
  unfold smul. now rewrite coord_map by lia.
Qed.

Lemma coord_full_step D theta e m p i :
  length theta = D -> mass_dim D m -> length p = D -> i < D ->
  coord i (vadd theta (bmul (scale e m) p))
  = (coord i theta + e * mass_at m i * coord i p)%num.
Proof.
  intros Ht Hm Hp Hi. unfold vadd.
  rewrite coord_zip_with
    by (rewrite ?(length_bmul D); auto using mass_dim_scale; lia).
  rewrite (coord_bmul D) by auto using mass_dim_scale.
  now rewrite (mass_at_scale D) by auto.
Qed.

Lemma length_half_step D r c g :
  length r = D -> length g = D -> length (vadd r (smul c g)) = D.
Proof. intros. apply length_vadd; rewrite ?length_smul; auto. Qed.

Lemma length_full_step D theta e m p :
  length theta = D -> mass_dim D m -> length p = D ->
  length (vadd theta (bmul (scale e m) p)) = D.
Proof.
  intros. apply length_vadd; auto. apply length_bmul; auto using mass_dim_scale.
Qed.

(** C3.  On vectors of dimension [D], for every oracle that returns a
    gradient of dimension [D] at the points of dimension [D] (whatever it
    does elsewhere), [leapfrog] returns the position
    [theta + epsilon * inv_mass * r_half], where [r_half] is the momentum
    after the half step [r + 0.5 * epsilon * grad] with the incoming
    gradient; the log-density and gradient of the oracle at that new
    position, exactly as the oracle returns them (finite or not: there is no
    error branch, [leapfrog] is a total function); and the momentum after a
    second half step with the new gradient. *)
Theorem leapfrog_steps D theta r grad epsilon (f : oracle) inv_mass :
  length theta = D -> length r = D -> length grad = D ->
  mass_dim D inv_mass ->
  (forall x, length x = D -> length (snd (f x)) = D) ->
  let '(thetaprime, rprime, gradprime, logpprime) :=
    leapfrog theta r grad epsilon f inv_mass in
  length thetaprime = D /\ length rprime = D
  /\ (logpprime, gradprime) = f thetaprime
  /\ forall i, i < D ->
       let r_half := (coord i r + half * epsilon * coord i grad)%num in
       coord i thetaprime
       = (coord i theta + epsilon * mass_at inv_mass i * r_half)%num
       /\ coord i rprime = (r_half + half * epsilon * coord i gradprime)%num.
Proof.
  intros Ht Hr Hg Hm Hf. rewrite leapfrog_eq. cbv zeta.
  set (rh := vadd r (smul (half * epsilon)%num grad)).
  set (th := vadd theta (bmul (scale epsilon inv_mass) rh)).
  assert (Hrh : length rh = D) by now apply length_half_step.
  assert (Hth : length th = D) by now apply length_full_step.
  assert (Hgp : length (snd (f th)) = D) by now apply Hf.
  split; [exact Hth |]. split; [now apply length_half_step |].
  split; [now destruct (f th) |]. intros i Hi. split.
  - unfold th. rewrite (coord_full_step D) by auto.
    unfold rh. now rewrite (coord_half_step D) by auto.
  - rewrite (coord_half_step D) by auto.
    unfold rh. now rewrite (coord_half_step D) by auto.
Qed.

(** C4.  In exact real arithmetic (every input a real number, the oracle's
    gradient a real vector, and [grad] the oracle's gradient at [theta]), a
    leapfrog step with step size [epsilon] followed by one with [- epsilon]
    from the resulting position, momentum and gradient returns exactly the
    original position and momentum. *)
Theorem leapfrog_reversible D theta r grad epsilon (f : oracle) inv_mass :
  finite_vec D theta -> finite_vec D r -> isfinite epsilon = true ->
  finite_mass D inv_mass ->
  grad = snd (f theta) ->
  (forall x, finite_vec D x -> finite_vec D (snd (f x))) ->
  let '(theta1, r1, grad1, _) := leapfrog theta r grad epsilon f inv_mass in
  let '(theta2, r2, _, _) :=
    leapfrog theta1 r1 grad1 (- epsilon)%num f inv_mass in
  theta2 = theta /\ r2 = r.
Proof.
  intros Ht Hr He Hm Hg Hf.
  assert (Hgf : finite_vec D grad) by (subst grad; auto).
  pose proof (finite_mass_dim D _ Hm) as Hmd.
  rewrite leapfrog_eq. cbv beta iota zeta.
  rewrite leapfrog_eq. cbv beta iota zeta.
  set (rh := vadd r (smul (half * epsilon)%num grad)).
  set (th := vadd theta (bmul (scale epsilon inv_mass) rh)).
  set (g1 := snd (f th)).
  set (rh2 := vadd (vadd rh (smul (half * epsilon)%num g1))
                   (smul (half * - epsilon)%num g1)).
  set (th2 := vadd th (bmul (scale (- epsilon)%num inv_mass) rh2)).
  assert (Lt : length theta = D) by apply Ht.
  assert (Lr : length r = D) by apply Hr.
  assert (Lg : length grad = D) by apply Hgf.
  assert (Lrh : length rh = D) by now apply length_half_step.
  assert (Frh : forall i, i < D -> isfinite (coord i rh) = true).
  { intros i Hi. unfold rh. rewrite (coord_half_step D) by auto.
    apply finite_half_step; eauto using finite_coord. }
  assert (Lth : length th = D) by now apply length_full_step.
  assert (Fth : finite_vec D th).
  { apply finite_vec_intro; auto. intros i Hi. unfold th.
    rewrite (coord_full_step D) by auto.
    apply finite_full_step; eauto using finite_coord, finite_mass_at. }
  assert (Fg1 : finite_vec D g1) by (apply Hf, Fth).
  assert (Lg1 : length g1 = D) by apply Fg1.
  assert (Erh : rh2 = rh).
  { apply vec_ext.
    - unfold rh2. rewrite (length_half_step D); auto.
      now apply length_half_step.
    - unfold rh2 at 1. rewrite (length_half_step D); auto;
        [| now apply length_half_step].
      intros i Hi. unfold rh2.
      rewrite (coord_half_step D) by (auto; now apply length_half_step).
      rewrite (coord_half_step D) by auto.
      apply half_steps_cancel; eauto using finite_coord. }
  assert (Eth : th2 = theta).
  { unfold th2. rewrite Erh. apply vec_ext.
    - rewrite (length_full_step D); auto.
    - rewrite (length_full_step D); auto. intros i Hi.
      rewrite (coord_full_step D) by auto.
      unfold th. rewrite (coord_full_step D) by auto.
      apply full_steps_cancel; eauto using finite_coord, finite_mass_at. }
  split; [exact Eth |].
  rewrite Eth, Erh, <- Hg. apply vec_ext.
  - rewrite (length_half_step D); auto.
  - rewrite (length_half_step D); auto. intros i Hi.
    rewrite (coord_half_step D) by auto.
    unfold rh. rewrite (coord_half_step D) by auto.
    apply half_steps_cancel; eauto using finite_coord.
Qed.

(** ** [stop_criterion] *)

Lemma reversed_term a b m x :
  ((a - b) * (m * - x))%num = ((b - a) * (m * x))%num.
Proof.
  rewrite (sub_antisym a b), mul_neg_r, mul_neg_l, mul_neg_r, neg_involutive.
  reflexivity.
Qed.

Lemma reversed_products a b im x :
  vmul (vsub a b) (bmul im (vneg x)) = vmul (vsub b a) (bmul im x).
Proof.
  destruct im as [c | d]; simpl; unfold vmul, vsub, smul, vneg.
  - revert b x; induction a as [| a0 a IH]; intros [| b0 b] [| x0 x]; simpl;
      try reflexivity.
    now rewrite reversed_term, IH.
  - revert b d x.
    induction a as [| a0 a IH]; intros [| b0 b] [| d0 d] [| x0 x];
      simpl; try reflexivity.
    now rewrite reversed_term, IH.
Qed.

(** C5, amended.  The stop criterion is symmetric under time reversal:
    exchanging the two endpoints together with their momenta, the momenta
    negated, does not change it. *)
Theorem stop_criterion_time_reversal thetaminus thetaplus rminus rplus inv_mass :
  stop_criterion thetaminus thetaplus rminus rplus inv_mass
  = stop_criterion thetaplus thetaminus (vneg rplus) (vneg rminus) inv_mass.
Proof.
  unfold stop_criterion, dot. rewrite !reversed_products. apply andb_comm.
Qed.

(** C5, as stated, fails: with the endpoints [0] and [1] and both momenta
    [1] the trajectory still moves apart, and the exchanged call reports a
    U-turn. *)
Lemma stop_criterion_not_symmetric :
  stop_criterion [zero] [one] [one] [one] (Scalar one) = true
  /\ stop_criterion [one] [zero] [one] [one] (Scalar one) = false.
Proof. split; vm_compute; reflexivity. Qed.

(** ** [build_tree] *)

Section Tree.
Context {L : Libm} {R : RandomState}.

(** C1.  At depth 0 [build_tree] takes one leapfrog step with step size
    [v * epsilon]; with [joint] the new log-density minus the mass-weighted
    kinetic energy of the new momentum,
    [logpprime - 0.5 * dot(inv_mass_chol * rprime, inv_mass_chol * rprime)]:
    [n = 1] iff [logu < joint]; [s = 1] iff [joint] is finite and
    [logu - 1000 < joint]; [alpha] is [min(1, exp(joint - joint0))] when
    [joint] is finite and [0] otherwise; [nalpha = 1]; and the minus and the
    plus endpoint are both the new point. *)
Theorem build_tree_base theta r grad logu v epsilon f joint0 inv_mass_chol
  inv_mass g :
  let '(thetaprime, rprime, gradprime, logpprime) :=
    leapfrog theta r grad (of_Z v * epsilon)%num f inv_mass in
  let joint :=
    (logpprime
     - half * dot (bmul inv_mass_chol rprime) (bmul inv_mass_chol rprime))%num in
  let t := fst (build_tree theta r grad logu v 0 epsilon f joint0
                           inv_mass_chol inv_mass g) in
  (nprime t = 1%Z <-> (logu <? joint)%num = true)
  /\ (sprime t = 1%Z <->
      isfinite joint = true /\ (logu - thousand <? joint)%num = true)
  /\ alphaprime t
     = (if isfinite joint then pymin one (exp (joint - joint0)%num) else zero)
  /\ nalphaprime t = 1%Z
  /\ (thetaminus t, rminus t, gradminus t) = (thetaprime, rprime, gradprime)
  /\ (thetaplus t, rplus t, gradplus t) = (thetaprime, rprime, gradprime).
Proof.
  cbn [build_tree].
  destruct (leapfrog theta r grad (of_Z v * epsilon)%num f inv_mass)
    as [[[thetaprime rprime] gradprime] logpprime].
  unfold joint_of. cbv zeta.
  cbn [fst nprime sprime alphaprime nalphaprime thetaminus rminus gradminus
       thetaplus rplus gradplus].
  split; [apply b2z_eq_1 |].
  split.
  - destruct (isfinite _).
    + rewrite b2z_eq_1. tauto.
    + split; [discriminate | intros [? _]; discriminate].
  - destruct (isfinite _); simpl; auto.
Qed.

(** The recursive case, with the second subtree named. *)
Lemma build_tree_succ theta r grad logu v j epsilon f joint0 imc im g :
  build_tree theta r grad logu v (S j) epsilon f joint0 imc im g
  = let '(t, g) := build_tree theta r grad logu v j epsilon f joint0 imc im g in
    if (sprime t =? 1)%Z then
      let '(t2, g) := second_subtree t logu v j epsilon f joint0 imc im g in
      let thetaminus' := if (v =? -1)%Z then thetaminus t2 else thetaminus t in
      let rminus' := if (v =? -1)%Z then rminus t2 else rminus t in
      let gradminus' := if (v =? -1)%Z then gradminus t2 else gradminus t in
      let thetaplus' := if (v =? -1)%Z then thetaplus t else thetaplus t2 in
      let rplus' := if (v =? -1)%Z then rplus t else rplus t2 in
      let gradplus' := if (v =? -1)%Z then gradplus t else gradplus t2 in
      let '(u, g) := random_uniform g in
      let pick2 :=
        match subtree_weight (nprime t) (nprime t2) with
        | Ok w => (u <? w)%num
        | _ => false
        end in
      (Tree thetaminus' rminus' gradminus' thetaplus' rplus' gradplus'
            (if pick2 then thetaprime t2 else thetaprime t)
            (if pick2 then gradprime t2 else gradprime t)
            (if pick2 then logpprime t2 else logpprime t)
            (nprime t + nprime t2)%Z
            (Z.b2z (truthy (sprime t) && truthy (sprime t2)
                    && stop_criterion thetaminus' thetaplus' rminus' rplus' im))
            (alphaprime t + alphaprime t2)%num
            (nalphaprime t + nalphaprime t2)%Z, g)
    else (t, g).
Proof. reflexivity. Qed.

Lemma nprime_succ theta r grad logu v j epsilon f joint0 imc im g :
  let '(t, g1) := build_tree theta r grad logu v j epsilon f joint0 imc im g in
  let t2 := fst (second_subtree t logu v j epsilon f joint0 imc im g1) in
  nprime (fst (build_tree theta r grad logu v (S j) epsilon f joint0 imc im g))
  = if (sprime t =? 1)%Z then (nprime t + nprime t2)%Z else nprime t.
Proof.
  rewrite build_tree_succ.
  destruct (build_tree theta r grad logu v j epsilon f joint0 imc im g) as [t g1].
  cbv zeta.
  destruct (sprime t =? 1)%Z; [| reflexivity].
  destruct (second_subtree _ _ _ _ _ _ _ _ _ _) as [t2 g2].
  destruct (random_uniform g2). reflexivity.
Qed.

Lemma nprime_bounds j : forall theta r grad logu v epsilon f joint0 imc im g,
  (0 <= nprime (fst (build_tree theta r grad logu v j epsilon f joint0 imc im g))
   <= 2 ^ Z.of_nat j)%Z.
Proof.
  induction j as [| j IH]; intros theta r gr logu v eps f joint0 imc im g.
  - cbn [build_tree]. destruct (leapfrog _ _ _ _ _ _) as [[[? ?] ?] ?].
    cbn [fst nprime]. destruct (_ <? _)%num; simpl; lia.
  - pose proof (nprime_succ theta r gr logu v j eps f joint0 imc im g) as E.
    pose proof (IH theta r gr logu v eps f joint0 imc im g) as B1.
    destruct (build_tree theta r gr logu v j eps f joint0 imc im g)
      as [t g1].
    cbv zeta in E. rewrite E. simpl fst in B1.
    rewrite Nat2Z.inj_succ, Z.pow_succ_r by lia.
    destruct (sprime t =? 1)%Z; [| lia].
    unfold second_subtree.
    destruct (v =? -1)%Z.
    + pose proof (IH (thetaminus t) (rminus t) (gradminus t) logu v eps
                     f joint0 imc im g1). lia.
    + pose proof (IH (thetaplus t) (rplus t) (gradplus t) logu v eps
                     f joint0 imc im g1). lia.
Qed.

(** C2.  The count of valid points of a tree of depth [j] lies between [0]
    and [2^j]; and at depth [j + 1] it is the sum of the counts of the two
    subtrees of depth [j], or the count of the first subtree alone when the
    flag of the first subtree is not 1 (the second one is then not built). *)
Theorem nprime_within_tree_size theta r grad logu v j epsilon f joint0
  inv_mass_chol inv_mass g :
  (0 <= nprime (fst (build_tree theta r grad logu v j epsilon f joint0
                                inv_mass_chol inv_mass g))
   <= 2 ^ Z.of_nat j)%Z
  /\ let '(t, g1) :=
       build_tree theta r grad logu v j epsilon f joint0
                  inv_mass_chol inv_mass g in
     let t2 :=
       fst (second_subtree t logu v j epsilon f joint0
                           inv_mass_chol inv_mass g1) in
     nprime (fst (build_tree theta r grad logu v (S j) epsilon f joint0
                             inv_mass_chol inv_mass g))
     = if (sprime t =? 1)%Z then (nprime t + nprime t2)%Z else nprime t.
Proof.
  split; [apply nprime_bounds | apply nprime_succ].
Qed.

Lemma nalphaprime_positive j :
  forall theta r grad logu v epsilon f joint0 imc im g,
  (1 <= nalphaprime (fst (build_tree theta r grad logu v j epsilon f joint0
                                     imc im g)))%Z.
Proof.
  induction j as [| j IH]; intros theta r gr logu v eps f joint0 imc im g.
  - cbn [build_tree]. destruct (leapfrog _ _ _ _ _ _) as [[[? ?] ?] ?].
    cbn [fst nalphaprime]. lia.
  - rewrite build_tree_succ.
    pose proof (IH theta r gr logu v eps f joint0 imc im g) as B1.
    destruct (build_tree theta r gr logu v j eps f joint0 imc im g)
      as [t g1].
    cbn [fst] in B1. cbv zeta.
    destruct (sprime t =? 1)%Z; [| exact B1].
    assert (B2 : (1 <= nalphaprime
                   (fst (second_subtree t logu v j eps f joint0
                                        imc im g1)))%Z).
    { unfold second_subtree. destruct (v =? -1)%Z; apply IH. }
    destruct (second_subtree _ _ _ _ _ _ _ _ _ _) as [t2 g2].
    destruct (random_uniform g2). cbn [fst nalphaprime] in *. lia.
Qed.

(** The weight of the second subtree is always defined: its divisor is at
    least one. *)
Lemma subtree_weight_defined n1 n2 :
  exists w, subtree_weight n1 n2 = Ok w.
Proof.
  unfold subtree_weight, pymax, gtb.
  destruct (of_Z (n1 + n2) <? one)%num eqn:E.
  - exists (of_Z n2 / one)%num. apply (pydiv_of_Z _ 1). discriminate.
  - eexists. apply pydiv_of_Z. intros Hz. rewrite Hz in E.
    vm_compute in E. discriminate.
Qed.

End Tree.

(** ** The doubling loop of [nuts6] *)

Section Loop.
Context {L : Libm} {R : RandomState}.

(** What one round of the doubling loop does to the counters and to the
    sample buffer, whenever the count of valid points it starts from is
    positive. *)
Lemma doubling_round_counters m logu eps f joint imc im mtd st :
  (1 <= st_n st)%Z ->
  exists st',
    doubling_round m logu eps f joint imc im mtd st = Ok st'
    /\ st_j st' = S (st_j st)
    /\ (st_n st <= st_n st')%Z
    /\ (1 <= st_nalpha st')%Z
    /\ (st_s st' = true -> (Z.of_nat (st_j st') < mtd)%Z)
    /\ length (st_samples st') = length (st_samples st)
    /\ (1 <= m -> hd_error (st_samples st') = hd_error (st_samples st)).
Proof.
  intros Hn. unfold doubling_round.
  destruct (random_uniform (st_gen st)) as [u g]. cbv zeta.
  set (v := (2 * Z.b2z (u <? half)%num - 1)%Z).
  assert (exists t g',
             (if (v =? -1)%Z
              then build_tree (st_thetaminus st) (st_rminus st)
                     (st_gradminus st) logu v (st_j st) eps f joint imc im g
              else build_tree (st_thetaplus st) (st_rplus st)
                     (st_gradplus st) logu v (st_j st) eps f joint imc im g)
             = (t, g')
             /\ (0 <= nprime t)%Z /\ (1 <= nalphaprime t)%Z)
    as (t & g' & -> & Hnp & Hna).
  { destruct (v =? -1)%Z.
    - pose proof (nprime_bounds (st_j st) (st_thetaminus st) (st_rminus st)
                    (st_gradminus st) logu v eps f joint imc im g).
      pose proof (nalphaprime_positive (st_j st) (st_thetaminus st)
                    (st_rminus st) (st_gradminus st) logu v eps f joint
                    imc im g).
      destruct (build_tree _ _ _ _ _ _ _ _ _ _ _ g) as [t g'].
      exists t, g'. cbn [fst] in *. repeat split; auto; lia.
    - pose proof (nprime_bounds (st_j st) (st_thetaplus st) (st_rplus st)
                    (st_gradplus st) logu v eps f joint imc im g).
      pose proof (nalphaprime_positive (st_j st) (st_thetaplus st)
                    (st_rplus st) (st_gradplus st) logu v eps f joint
                    imc im g).
      destruct (build_tree _ _ _ _ _ _ _ _ _ _ _ g) as [t g'].
      exists t, g'. cbn [fst] in *. repeat split; auto; lia. }
  rewrite pydiv_of_Z by lia. cbn [bind].
  destruct (if (sprime t =? 1)%Z then _ else _) as [accept g''].
  eexists. split; [reflexivity |].
  cbn [st_j st_n st_nalpha st_s st_samples].
  split; [reflexivity |]. split; [lia |]. split; [exact Hna |].
  split; [| split].
  - intros Hs. apply andb_prop in Hs as [_ Hs]. now apply Z.ltb_lt in Hs.
  - destruct accept; auto using length_upd.
  - intros Hm. destruct accept; auto using hd_upd.
Qed.

Lemma doubling_loop_runs m logu eps f joint imc im mtd fuel : forall st,
  doubling_inv mtd st ->
  (Z.max 1 mtd <= Z.of_nat (fuel + st_j st))%Z ->
  exists st',
    doubling_loop fuel m logu eps f joint imc im mtd st = Ok st'
    /\ doubling_inv mtd st'
    /\ st_s st' = false
    /\ (Z.of_nat (st_j st') <= Z.max (Z.of_nat (st_j st)) (Z.max 1 mtd))%Z
    /\ st_j st <= st_j st'
    /\ (st_s st = true -> st_j st < st_j st')
    /\ length (st_samples st') = length (st_samples st)
    /\ (1 <= m -> hd_error (st_samples st') = hd_error (st_samples st)).
Proof.
  unfold doubling_loop.
  induction fuel as [| fuel IH]; intros st Hinv Hfuel.
  - cbn [while_loop]. destruct (st_s st) eqn:Hs.
    + destruct (inv_depth _ _ Hinv Hs) as [H0 | Hlt]; lia.
    + exists st. repeat split; try apply Hinv; auto; try lia; discriminate.
  - cbn [while_loop]. destruct (st_s st) eqn:Hs.
    + destruct (doubling_round_counters m logu eps f joint imc im mtd st
                  (inv_count _ _ Hinv))
        as (st1 & -> & Hj & Hn & Hna & Hs1 & Hlen & Hhd).
      cbn [bind].
      assert (Hinv1 : doubling_inv mtd st1).
      { split; auto. pose proof (inv_count _ _ Hinv). lia. }
      destruct (IH st1 Hinv1)
        as (st' & -> & Hinv' & Hs' & Hj' & Hmono & _ & Hlen' & Hhd').
      { rewrite Hj. lia. }
      exists st'. split; [reflexivity |]. split; [exact Hinv' |].
      split; [exact Hs' |].
      assert (Hdepth : (Z.of_nat (st_j st1) <= Z.max 1 mtd)%Z).
      { rewrite Hj. destruct (inv_depth _ _ Hinv Hs) as [H0 | Hlt]; lia. }
      split; [lia |]. split; [lia |]. split; [lia |].
      split; [congruence |]. intros Hm. rewrite Hhd', Hhd; auto.
    + exists st. repeat split; try apply Hinv; auto; try lia; discriminate.
Qed.

Lemma doubling_init_inv mtd m c r0 g : doubling_inv mtd (doubling_init m c r0 g).
Proof. split; cbn; auto; lia. Qed.

(** C9, amended.  In every outer iteration the doubling loop terminates
    after at least one and at most [max(1, max_tree_depth)] rounds: that
    many rounds of fuel (or more) suffice, the loop ends with [s] false, and
    the depth counter, which counts the rounds, ends between [1] and
    [max(1, max_tree_depth)]. *)
Theorem doubling_loop_terminates k m logu eps f joint imc im max_tree_depth
  c r0 g :
  exists st,
    doubling_loop (Z.to_nat (Z.max 1 max_tree_depth) + k) m logu eps f joint
                  imc im max_tree_depth (doubling_init m c r0 g) = Ok st
    /\ st_s st = false
    /\ 1 <= st_j st
    /\ (Z.of_nat (st_j st) <= Z.max 1 max_tree_depth)%Z.
Proof.
  destruct (doubling_loop_runs m logu eps f joint imc im max_tree_depth
              (Z.to_nat (Z.max 1 max_tree_depth) + k) (doubling_init m c r0 g)
              (doubling_init_inv max_tree_depth m c r0 g))
    as (st & E & _ & Hs & Hj & _ & Hlt & _).
  { lia. }
  exists st. split; [exact E |]. split; [exact Hs |].
  cbn [doubling_init st_j st_s] in Hj, Hlt. split; [| lia].
  specialize (Hlt eq_refl). lia.
Qed.

(** C10.  In every state the doubling loop of an outer iteration goes
    through, the count [n] of valid points is at least 1: the division
    [float(nprime) / float(n)] of the Metropolis ratio is defined for every
    [nprime], and the round run from that state does not raise. *)
Theorem valid_count_positive m logu eps f joint imc im max_tree_depth c r0 g st :
  visited m logu eps f joint imc im max_tree_depth (doubling_init m c r0 g) st ->
  (1 <= st_n st)%Z
  /\ (forall nprime, pydiv (of_Z nprime) (of_Z (st_n st))
                     = Ok (of_Z nprime / of_Z (st_n st))%num)
  /\ exists st',
       doubling_round m logu eps f joint imc im max_tree_depth st = Ok st'.
Proof.
  intros Hv.
  assert (Hn : (1 <= st_n st)%Z).
  { induction Hv as [| st st' _ IH _ Hround].
    - cbn. lia.
    - destruct (doubling_round_counters m logu eps f joint imc im
                  max_tree_depth st IH) as (st1 & E & _ & Hle & _).
      rewrite E in Hround. injection Hround as <-. lia. }
  split; [exact Hn |]. split.
  - intros nprime. apply pydiv_of_Z. lia.
  - destruct (doubling_round_counters m logu eps f joint imc im
                max_tree_depth st Hn) as (st1 & E & _). now exists st1.
Qed.

End Loop.

(** ** Loops *)

Lemma while_loop_diverges {S : Type} (I : S -> Prop) cond body :
  (forall s, I s -> cond s = true /\ exists s', body s = Ok s' /\ I s') ->
  forall fuel s, I s -> while_loop fuel cond body s = OutOfFuel.
Proof.
  intros Hstep. induction fuel as [| fuel IH]; intros s Hs;
    destruct (Hstep s Hs) as (Hc & s' & Hb & Hs'); cbn [while_loop];
    rewrite Hc; [reflexivity |].
  rewrite Hb. cbn [bind]. now apply IH.
Qed.

Lemma for_range_invariant {S : Type} (I : S -> Prop) l body :
  (forall m s, In m l -> I s -> exists s', body m s = Ok s' /\ I s') ->
  forall s, I s -> exists s', for_range l body s = Ok s' /\ I s'.
Proof.
  induction l as [| m l IH]; intros Hbody s Hs.
  - exists s. now split.
  - destruct (Hbody m s (or_introl eq_refl) Hs) as (s1 & E & Hs1).
    cbn [for_range]. rewrite E. cbn [bind].
    apply IH; auto. intros m' s' Hin. apply Hbody. now right.
Qed.

Lemma hd_skipn_nth {A} n (l : list A) : hd_error (skipn n l) = nth_error l n.
Proof. revert l; induction n; intros [|]; simpl; auto. Qed.

Lemma add_PInf_not_finite x : isfinite (PInf + x)%num = false.
Proof. now destruct x. Qed.

Lemma joint_of_PInf imc r : isfinite (joint_of PInf imc r) = false.
Proof. unfold joint_of, sub. apply add_PInf_not_finite. Qed.

(** ** [nuts6] on a log-density that is plus infinity everywhere *)

Section Divergence.
Context {L : Libm} {R : RandomState}.
Variable f : oracle.
Hypothesis f_inf : forall x, fst (f x) = PInf.

Lemma leapfrog_inf theta r gr eps im :
  snd (leapfrog theta r gr eps f im) = PInf.
Proof. rewrite leapfrog_eq. cbv zeta. cbn [snd]. apply f_inf. Qed.

Lemma build_tree_inf_flag j : forall theta r gr logu v eps joint0 imc im g,
  sprime (fst (build_tree theta r gr logu v j eps f joint0 imc im g)) = 0%Z.
Proof.
  induction j as [| j IH]; intros theta r gr logu v eps joint0 imc im g.
  - cbn [build_tree].
    pose proof (leapfrog_inf theta r gr (of_Z v * eps)%num im) as E.
    destruct (leapfrog _ _ _ _ _ _) as [[[th rp] gp] lp]. cbn [snd] in E.
    subst lp. cbn [fst sprime]. now rewrite joint_of_PInf.
  - rewrite build_tree_succ.
    pose proof (IH theta r gr logu v eps joint0 imc im g) as E.
    destruct (build_tree theta r gr logu v j eps f joint0 imc im g) as [t g1].
    cbn [fst] in E. cbv zeta.
    destruct (sprime t =? 1)%Z eqn:Et; [apply Z.eqb_eq in Et; congruence |].
    exact E.
Qed.

Lemma find_reasonable_epsilon_inf fuel theta0 grad0 logp0 epsilon0 im g :
  find_reasonable_epsilon fuel theta0 grad0 logp0 f epsilon0 im g = OutOfFuel.
Proof.
  unfold find_reasonable_epsilon.
  destruct (random_normal (length theta0) g) as [r0 g1]. cbv zeta.
  pose proof (leapfrog_inf theta0 r0 grad0 (one * epsilon0)%num im) as E.
  destruct (leapfrog _ _ _ _ _ _) as [[[th rp] gp] lp]. cbn [snd] in E. subst lp.
  rewrite (while_loop_diverges
             (fun st : num * vec * vec * num => snd st = PInf));
    [reflexivity | | reflexivity].
  intros [[[k rp'] gp'] lp] Hlp. cbn [snd] in Hlp. subst lp. split.
  - reflexivity.
  - unfold halving_body.
    pose proof (leapfrog_inf theta0 r0 grad0
                  (one * epsilon0 * (k * half))%num im) as E.
    destruct (leapfrog _ _ _ _ _ _) as [[[th2 rp2] gp2] lp2]. cbn [snd] in E.
    eexists. split; [reflexivity | exact E].
Qed.

Lemma doubling_round_inf m logu eps joint imc im mtd st :
  (1 <= st_n st)%Z ->
  exists st',
    doubling_round m logu eps f joint imc im mtd st = Ok st'
    /\ st_samples st' = st_samples st
    /\ st_s st' = false
    /\ st_j st' = S (st_j st).
Proof.
  intros Hn. unfold doubling_round.
  destruct (random_uniform (st_gen st)) as [u g]. cbv zeta.
  set (v := (2 * Z.b2z (u <? half)%num - 1)%Z).
  assert (exists t g',
             (if (v =? -1)%Z
              then build_tree (st_thetaminus st) (st_rminus st)
                     (st_gradminus st) logu v (st_j st) eps f joint imc im g
              else build_tree (st_thetaplus st) (st_rplus st)
                     (st_gradplus st) logu v (st_j st) eps f joint imc im g)
             = (t, g') /\ sprime t = 0%Z)
    as (t & g' & -> & Hs).
  { destruct (v =? -1)%Z.
    - pose proof (build_tree_inf_flag (st_j st) (st_thetaminus st)
                    (st_rminus st) (st_gradminus st) logu v eps joint imc im g).
      destruct (build_tree _ _ _ _ _ _ _ _ _ _ _ g) as [t g']. now exists t, g'.
    - pose proof (build_tree_inf_flag (st_j st) (st_thetaplus st)
                    (st_rplus st) (st_gradplus st) logu v eps joint imc im g).
      destruct (build_tree _ _ _ _ _ _ _ _ _ _ _ g) as [t g']. now exists t, g'. }
  rewrite pydiv_of_Z by lia. cbn [bind]. rewrite Hs.
  change (0 =? 1)%Z with false. cbv iota beta.
  eexists. split; [reflexivity |]. cbn. auto.
Qed.

Lemma doubling_loop_inf fuel m logu eps joint imc im mtd c r0 g :
  exists st,
    doubling_loop (S fuel) m logu eps f joint imc im mtd
                  (doubling_init m c r0 g) = Ok st
    /\ st_samples st = upd m (nth (m - 1) (samples c) []) (samples c)
    /\ st_j st = 1.
Proof.
  unfold doubling_loop.
  destruct (doubling_round_inf m logu eps joint imc im mtd
              (doubling_init m c r0 g)) as (st & E & Hsam & Hs & Hj).
  { cbn. lia. }
  set (st0 := doubling_init m c r0 g) in *.
  assert (Hs0 : st_s st0 = true) by reflexivity.
  cbn [while_loop]. rewrite Hs0, E. cbn [bind].
  exists st. split.
  - destruct fuel; cbn [while_loop]; now rewrite Hs.
  - split; [exact Hsam | exact Hj].
Qed.

Lemma nuts6_inf uninit fuel M Madapt D theta delta mtd epsilon0 estimate_mass g :
  nuts6 uninit fuel f (S M) Madapt (NDArray [D] theta) delta mtd epsilon0
        estimate_mass g = OutOfFuel.
Proof.
  unfold nuts6. cbn [shape data length len bind Nat.ltb Nat.leb].
  destruct (f theta) as [logp0 grad0].
  destruct (initial_mass estimate_mass grad0) as [[[d0 mc0] im0] imc0].
  cbn [Nat.add Nat.eqb]. rewrite find_reasonable_epsilon_inf. reflexivity.
Qed.

End Divergence.

(** C8, amended.  For an oracle whose log-density is plus infinity
    everywhere: [build_tree] at depth 0 returns the flag [s = 0]; the
    doubling loop of an outer iteration stops after one round and leaves in
    row [m] of the buffer the sample of row [m - 1]; but [nuts6] does not
    return: the first loop of [find_reasonable_epsilon] never sees a finite
    log-density, so whatever the number of rounds allowed, the call is still
    running. *)
Theorem infinite_oracle {L : Libm} {R : RandomState} (f : oracle) :
  (forall x, fst (f x) = PInf) ->
  (forall theta r gr logu v eps joint0 imc im g,
     sprime (fst (build_tree theta r gr logu v 0 eps f joint0 imc im g)) = 0%Z)
  /\ (forall fuel m logu eps joint imc im max_tree_depth c r0 g,
        exists st,
          doubling_loop (S fuel) m logu eps f joint imc im max_tree_depth
                        (doubling_init m c r0 g) = Ok st
          /\ st_samples st = upd m (nth (m - 1) (samples c) []) (samples c)
          /\ st_j st = 1)
  /\ (forall uninit fuel M Madapt D theta delta max_tree_depth epsilon0
             estimate_mass g,
        nuts6 uninit fuel f (S M) Madapt (NDArray [D] theta) delta
              max_tree_depth epsilon0 estimate_mass g = OutOfFuel).
Proof.
  intros Hf. split; [| split]; intros.
  - now apply build_tree_inf_flag.
  - now apply doubling_loop_inf.
  - now apply nuts6_inf.
Qed.

(** ** The exceptions of [nuts6] *)

Lemma arithmetic_only_bind {A B} (c : result A) (k : A -> result B) :
  arithmetic_only c -> (forall a, arithmetic_only (k a)) ->
  arithmetic_only (bind c k).
Proof. destruct c; simpl; auto. Qed.

Lemma arithmetic_only_pydiv x y : arithmetic_only (pydiv x y).
Proof. unfold pydiv. destruct y; simpl; auto. destruct (_ ?= _)%Qc; simpl; auto. Qed.

Lemma arithmetic_only_while {S} fuel cond body :
  (forall s : S, arithmetic_only (body s)) ->
  forall s, arithmetic_only (while_loop fuel cond body s).
Proof.
  intros Hb. induction fuel as [| fuel IH]; intros s; cbn [while_loop];
    destruct (cond s); simpl; auto.
  apply arithmetic_only_bind; auto.
Qed.

Lemma arithmetic_only_for {S} l body :
  (forall m (s : S), arithmetic_only (body m s)) ->
  forall s, arithmetic_only (for_range l body s).
Proof.
  intros Hb. induction l as [| m l IH]; intros s; cbn [for_range]; simpl; auto.
  apply arithmetic_only_bind; auto.
Qed.

Section Raises.
Context {L : Libm} {R : RandomState}.

Lemma arithmetic_only_find fuel theta0 grad0 logp0 f epsilon0 im g :
  arithmetic_only (find_reasonable_epsilon fuel theta0 grad0 logp0 f epsilon0 im g).
Proof.
  unfold find_reasonable_epsilon.
  destruct (random_normal _ g) as [r0 g1]. cbv zeta.
  destruct (leapfrog _ _ _ _ _ _) as [[[th rp] gp] lp].
  apply arithmetic_only_bind.
  - apply arithmetic_only_while. intros [[[k ?] ?] ?]. unfold halving_body.
    destruct (leapfrog _ _ _ _ _ _) as [[[? ?] ?] ?]. exact I.
  - intros [[[k rp'] gp'] lp']. apply arithmetic_only_bind.
    + apply arithmetic_only_while. intros [[[e ?] ?] ?]. unfold crossing_body.
      destruct (leapfrog _ _ _ _ _ _) as [[[? ?] ?] ?]. exact I.
    + intros [[[e ?] ?] ?]. exact I.
Qed.

Lemma arithmetic_only_round m logu eps f joint imc im mtd st :
  arithmetic_only (doubling_round m logu eps f joint imc im mtd st).
Proof.
  unfold doubling_round. destruct (random_uniform (st_gen st)) as [u g].
  cbv zeta. destruct (if (_ =? -1)%Z then _ else _) as [t g'].
  apply arithmetic_only_bind; [apply arithmetic_only_pydiv |].
  intros ratio. destruct (if (sprime t =? 1)%Z then _ else _). exact I.
Qed.

Lemma arithmetic_only_adapt Madapt delta mu em m abar c :
  arithmetic_only (adapt Madapt delta mu em m abar c).
Proof.
  unfold adapt. destruct (m <=? Madapt); [| exact I].
  apply arithmetic_only_bind; [apply arithmetic_only_pydiv |]. intros; exact I.
Qed.

Lemma arithmetic_only_iteration fuel Madapt D f delta mu mtd em m c :
  arithmetic_only (iteration fuel Madapt D f delta mu mtd em m c).
Proof.
  unfold iteration. destruct (random_normal D (gen c)) as [z g1].
  destruct (random_exponential g1) as [e g2]. cbv zeta.
  apply arithmetic_only_bind.
  - apply arithmetic_only_while. intros; apply arithmetic_only_round.
  - intros st. apply arithmetic_only_bind; [apply arithmetic_only_pydiv |].
    intros; apply arithmetic_only_adapt.
Qed.

Lemma arithmetic_only_nuts6 uninit fuel f M Madapt D elements delta mtd
  epsilon0 em g :
  arithmetic_only
    (nuts6 uninit fuel f (S M) Madapt (NDArray [D] elements) delta mtd
           epsilon0 em g).
Proof.
  unfold nuts6. cbn [shape data length len bind Nat.ltb Nat.leb].
  destruct (f elements) as [logp0 grad0].
  destruct (initial_mass em grad0) as [[[d0 mc0] im0] imc0].
  cbn [Nat.add Nat.eqb].
  apply arithmetic_only_bind; [apply arithmetic_only_find |].
  intros [eps g1]. apply arithmetic_only_bind.
  - apply arithmetic_only_for. intros; apply arithmetic_only_iteration.
  - intros c. exact I.
Qed.

End Raises.

(** ** [nuts6]: the sample buffer *)

Section Run.
Context {L : Libm} {R : RandomState}.

Lemma adapt_runs N theta0 Madapt delta mu estimate_mass m abar c :
  chain_inv N theta0 c ->
  exists c', adapt Madapt delta mu estimate_mass m abar c = Ok c'
             /\ chain_inv N theta0 c'.
Proof.
  intros [Hrows Hfirst Hm]. unfold adapt.
  destruct (m <=? Madapt).
  - rewrite pydiv_of_Z by (unfold t0; lia). cbn [bind].
    eexists. split; [reflexivity |].
    split; cbn [samples m_adapt]; auto.
    destruct (_ || _); lia.
  - eexists. split; [reflexivity |]. split; cbn [samples m_adapt]; auto.
Qed.

Lemma iteration_runs N theta0 fuel Madapt D f delta mu mtd estimate_mass m c :
  (Z.max 1 mtd <= Z.of_nat fuel)%Z -> 1 <= m ->
  chain_inv N theta0 c ->
  exists c', iteration fuel Madapt D f delta mu mtd estimate_mass m c = Ok c'
             /\ chain_inv N theta0 c'.
Proof.
  intros Hfuel Hm [Hrows Hfirst Hma]. unfold iteration.
  destruct (random_normal D (gen c)) as [z g1].
  destruct (random_exponential g1) as [e g2]. cbv zeta.
  destruct (doubling_loop_runs m
              (logp c - half * dot z z - e)%num (epsilon c) f
              (logp c - half * dot z z)%num (inv_mass_chol c) (inv_mass c)
              mtd fuel (doubling_init m c (bmul (mass_chol c) z) g2)
              (doubling_init_inv mtd m c _ g2))
    as (st & -> & Hinv & _ & _ & _ & _ & Hlen & Hhd).
  { cbn [doubling_init st_j]. lia. }
  cbn [bind]. rewrite pydiv_of_Z by (pose proof (inv_nalpha _ _ Hinv); lia).
  cbn [bind]. apply adapt_runs. split; cbn [samples m_adapt]; auto.
  - rewrite Hlen. cbn [doubling_init st_samples]. now rewrite length_upd.
  - rewrite Hhd by exact Hm. cbn [doubling_init st_samples].
    now rewrite hd_upd.
Qed.

(** C7.  The rank check of [nuts6] rejects an initial position of rank 2 or
    more with the input error, whatever the oracle; an initial position of
    rank 1 passes it (the call raises no input, type or index error from
    there on); but an initial position of rank 0 passes the check too, and
    fails at [len(theta0)] with a type error instead of the input error. *)
Theorem nuts6_rank_check uninit fuel f M Madapt delta max_tree_depth
  epsilon0 estimate_mass g d1 d2 dims D elements :
  nuts6 uninit fuel f M Madapt (NDArray (d1 :: d2 :: dims) elements) delta
        max_tree_depth epsilon0 estimate_mass g = Raise ValueError
  /\ arithmetic_only
       (nuts6 uninit fuel f (S M) Madapt (NDArray [D] elements) delta
              max_tree_depth epsilon0 estimate_mass g)
  /\ nuts6 uninit fuel f M Madapt (NDArray [] elements) delta
           max_tree_depth epsilon0 estimate_mass g = Raise TypeError.
Proof.
  split; [reflexivity |]. split; [apply arithmetic_only_nuts6 | reflexivity].
Qed.

End Run.

(** ** Concrete runs *)

Lemma box_oracle_finite D x : finite_vec D x -> finite_vec D (snd (box_oracle x)).
Proof.
  intros [Hl _]. split; cbn [box_oracle snd].
  - now rewrite length_map.
  - clear Hl. induction x; simpl; auto.
Qed.

(** *** The run, for every [Libm] *)

Lemma while_loop_done {T} fuel cond body (s : T) :
  cond s = false -> while_loop fuel cond body s = Ok s.
Proof. intros H. destruct fuel; cbn [while_loop]; now rewrite H. Qed.

Lemma while_loop_round {T} fuel cond body (s s' : T) :
  cond s = true -> body s = Ok s' ->
  while_loop (S fuel) cond body s = while_loop fuel cond body s'.
Proof. intros H E. cbn [while_loop]. now rewrite H, E. Qed.

Lemma trial_step_one :
  leapfrog [zero] [one] [zero] (one * one)%num box_oracle (Scalar one)
  = ([one], [one], [zero], zero).
Proof. canon. Qed.

Lemma trial_step_two :
  leapfrog [zero] [one] [zero] (half * two * two)%num box_oracle (Scalar one)
  = ([two], [one], [zero], NInf).
Proof. canon. Qed.

Lemma flat_logacceptprob :
  logacceptprob_of zero zero [one] [one] (Scalar one) = zero.
Proof. canon. Qed.

Lemma outside_logacceptprob :
  logacceptprob_of NInf zero [one] [one] (Scalar one) = NInf.
Proof. canon. Qed.

Section Search.
Context {L : Libm}.

Lemma log_two : log two = log_pos (Q2Qc 2).
Proof. reflexivity. Qed.

(** The second loop of [find_reasonable_epsilon] goes on while the
    acceptance is certain, and stops once the trial step leaves the box. *)
Lemma crossing_goes_on x :
  (zero <? x)%num = true -> (one * zero >? - one * x)%num = true.
Proof.
  intros H. destruct x as [p | | |]; try discriminate H; [| reflexivity].
  unfold gtb, one, zero, of_Z, of_Q in *. cbn [neg mul ltb] in *.
  change (Q2Qc (inject_Z 1)) with 1%Qc.
  change (Q2Qc (inject_Z 0)) with 0%Qc in *.
  destruct (0 ?= p)%Qc eqn:E; try discriminate H.
  apply Qclt_alt in E.
  assert (E' : (- (1) * p < 1 * 0)%Qc).
  { apply Qclt_minus_iff.
    now replace (1 * 0 + - (- (1) * p))%Qc with p by ring. }
  now rewrite (proj1 (Qclt_alt _ _) E').
Qed.

Lemma crossing_stops x : (one * NInf >? - one * x)%num = false.
Proof.
  unfold gtb. change (one * NInf)%num with NInf. now destruct (- one * x)%num.
Qed.

Lemma demo_direction :
  (two * float_of_bool (exp zero >? half) - one)%num = one.
Proof.
  change (exp zero) with (exp_fin 0). rewrite exp_fin_zero. canon.
Qed.

(** The step-size search of the run: one trial step at [epsilon = 1], then
    [epsilon = 1/2], doubled twice. *)
Lemma demo_search :
  @find_reasonable_epsilon L tape 10 [zero] [zero] zero box_oracle one
    (Scalar one) demo_tape
  = Ok ((half * one * (one * one) * two * two)%num, tl demo_tape).
Proof.
  unfold find_reasonable_epsilon.
  change (@random_normal tape (length [zero]) demo_tape)
    with ([one], tl demo_tape).
  cbv beta iota zeta. rewrite trial_step_one. cbv beta iota zeta.
  rewrite while_loop_done by reflexivity. cbn [bind].
  rewrite flat_logacceptprob, demo_direction.
  rewrite (while_loop_round 9 _ _ _
             (half * one * (one * one) * two, [one], zero, zero)%num).
  2:{ unfold crossing_cond. apply crossing_goes_on. rewrite log_two.
      apply log_two_positive. }
  2:{ unfold crossing_body. rewrite pow_two_one.
      replace (half * one * (one * one) * two)%num
        with (one * one)%num at 1 by canon.
      rewrite trial_step_one. now rewrite flat_logacceptprob. }
  rewrite (while_loop_round 8 _ _ _
             (half * one * (one * one) * two * two, [one], NInf, NInf)%num).
  2:{ unfold crossing_cond. apply crossing_goes_on. rewrite log_two.
      apply log_two_positive. }
  2:{ unfold crossing_body. rewrite pow_two_one.
      replace (half * one * (one * one) * two * two)%num
        with (half * two * two)%num at 1 by canon.
      rewrite trial_step_two. now rewrite outside_logacceptprob. }
  rewrite while_loop_done by (unfold crossing_cond; apply crossing_stops).
  reflexivity.
Qed.

(** With one burn-in sample the run returns one sample, and it is not the
    initial position: this holds whatever the values of the transcendental
    functions beyond the laws of [Libm]. *)
Lemma demo_run_moves :
  exists out g,
    demo_run 1 1 = Ok (out, g)
    /\ length (fst (fst out)) = 1
    /\ hd_error (fst (fst out)) <> Some (data demo_theta0).
Proof.
  unfold demo_run, nuts6, demo_theta0.
  cbn [shape data length len bind Nat.ltb Nat.leb].
  change (box_oracle [zero]) with (zero, [zero]). cbv beta iota zeta.
  cbn [Nat.add Nat.eqb initial_mass]. cbv beta iota zeta.
  rewrite demo_search. cbn [bind].
  eexists. eexists. split; [lazy; reflexivity |].
  split.
  - lazy. reflexivity.
  - lazy. intros H. discriminate H.
Qed.

(** With [max_tree_depth = 0] the doubling loop of that iteration is not over
    after zero rounds, and is over after one. *)
Lemma demo_loop_rounds :
  demo_loop (Z.to_nat 0) 0 = OutOfFuel
  /\ exists st, demo_loop 1 0 = Ok st /\ st_j st = 1 /\ st_s st = false.
Proof.
  split; [reflexivity |].
  eexists. split; [lazy; reflexivity |]. split; lazy; reflexivity.
Qed.

End Search.

(** *** Witnesses *)

(** C3 at a concrete input: a step of the example target, whose gradient is
    not zero, with a diagonal mass matrix. *)
Lemma leapfrog_steps_witness :
  let '(thetaprime, rprime, gradprime, logpprime) :=
    leapfrog [one; zero] [one; one] [one; two] half correlated_normal
             (Diag [two; one]) in
  length thetaprime = 2 /\ length rprime = 2
  /\ (logpprime, gradprime) = correlated_normal thetaprime
  /\ forall i, i < 2 ->
       let r_half :=
         (coord i [one; one] + half * half * coord i [one; two])%num in
       coord i thetaprime
       = (coord i [one; zero] + half * mass_at (Diag [two; one]) i * r_half)%num
       /\ coord i rprime = (r_half + half * half * coord i gradprime)%num.
Proof.
  apply (leapfrog_steps 2 [one; zero] [one; one] [one; two] half
           correlated_normal (Diag [two; one]));
    [reflexivity | reflexivity | reflexivity | reflexivity
    | intros x _; reflexivity].
Defined.

(** C4 at a concrete input. *)
Lemma leapfrog_reversible_witness :
  let '(theta1, r1, grad1, _) :=
    leapfrog [zero] [one] [zero] half box_oracle (Diag [two]) in
  let '(theta2, r2, _, _) :=
    leapfrog theta1 r1 grad1 (- half)%num box_oracle (Diag [two]) in
  theta2 = [zero] /\ r2 = [one].
Proof.
  apply (leapfrog_reversible 1 [zero] [one] [zero] half box_oracle (Diag [two]));
    [split; reflexivity | split; reflexivity | reflexivity
    | split; reflexivity | reflexivity | exact (box_oracle_finite 1)].
Defined.

(** C10 at the state the doubling loop starts from. *)
Lemma valid_count_positive_witness :
  (1 <= st_n (@doubling_init tape 1 demo_chain [quarter] [quarter; zero]))%Z
  /\ (forall nprime,
        pydiv (of_Z nprime)
              (of_Z (st_n (@doubling_init tape 1 demo_chain [quarter] [quarter; zero])))
        = Ok (of_Z nprime
              / of_Z (st_n (@doubling_init tape 1 demo_chain [quarter] [quarter; zero])))%num)
  /\ exists st',
       @doubling_round libm_ref tape 1 demo_logu two box_oracle demo_joint
         (Scalar one) (Scalar one) 10
         (@doubling_init tape 1 demo_chain [quarter] [quarter; zero]) = Ok st'.
Proof.
  apply (@valid_count_positive libm_ref tape 1 demo_logu two box_oracle
           demo_joint (Scalar one) (Scalar one) 10 demo_chain [quarter]
           [quarter; zero]).
  apply visited_first.
Defined.

(** C8, amended, at [inf_oracle]. *)
Lemma infinite_oracle_witness :
  (forall theta r gr logu v eps joint0 imc im g,
     sprime (fst (@build_tree libm_ref tape theta r gr logu v 0 eps inf_oracle
                    joint0 imc im g)) = 0%Z)
  /\ (forall fuel m logu eps joint imc im max_tree_depth c r0 g,
        exists st,
          @doubling_loop libm_ref tape (S fuel) m logu eps inf_oracle joint
            imc im max_tree_depth (doubling_init m c r0 g) = Ok st
          /\ st_samples st = upd m (nth (m - 1) (samples c) []) (samples c)
          /\ st_j st = 1)
  /\ (forall uninit fuel M Madapt D theta delta max_tree_depth epsilon0
             estimate_mass g,
        @nuts6 libm_ref tape uninit fuel inf_oracle (S M) Madapt
          (NDArray [D] theta) delta max_tree_depth epsilon0 estimate_mass g
        = OutOfFuel).
Proof.
  apply (@infinite_oracle libm_ref tape inf_oracle). intros x. reflexivity.
Defined.

(** *** Counterexamples *)

(** C6.  The first returned sample is not always [theta0], as the docstring
    of [nuts6] notes it is: with [M = 1] and [Madapt = 1] the chain moves to
    [[1/2]] in its burn-in iteration, and that sample, not [theta0 = [0]],
    is the first (and only) one returned. *)
Lemma first_returned_sample_moved :
  exists out g,
    @demo_run libm_ref 1 1 = Ok (out, g)
    /\ length (fst (fst out)) = 1
    /\ hd_error (fst (fst out)) <> Some (data demo_theta0).
Proof. exact (@demo_run_moves libm_ref). Qed.

(** C9, as stated, fails: with [max_tree_depth = 0] the loop is not over
    after [max_tree_depth] rounds; it runs one doubling and ends at depth 1. *)
Lemma one_doubling_at_depth_bound_zero :
  @demo_loop libm_ref (Z.to_nat 0) 0 = OutOfFuel
  /\ exists st, @demo_loop libm_ref 1 0 = Ok st /\ st_j st = 1 /\ st_s st = false.
Proof. exact (@demo_loop_rounds libm_ref). Qed.

(** C8, as stated, fails: on [inf_oracle] the flag at depth 0 is 0, but
    [nuts6] returns no samples, however many rounds its loops are allowed. *)
Lemma nuts6_runs_forever_on_infinite_oracle :
  sprime (fst (@build_tree libm_ref tape [zero] [one] [zero] zero 1 0 one
                 inf_oracle zero (Scalar one) (Scalar one) [])) = 0%Z
  /\ forall fuel,
       @nuts6 libm_ref tape NaN fuel inf_oracle 1 0 demo_theta0 (of_Q (3 # 5))
         10 one true [] = OutOfFuel.
Proof.
  split; [vm_compute; reflexivity |].
  intros fuel. apply (@nuts6_inf libm_ref tape inf_oracle). intros x. reflexivity.
Qed.

(** * Further properties *)

(** ** More arithmetic of [num] *)

Lemma of_Z_add n m : of_Z (n + m) = (of_Z n + of_Z m)%num.
Proof.
  unfold of_Z, of_Q. cbn [add]. f_equal. apply Qc_is_canon.
  cbn [this Qcplus Q2Qc]. rewrite !Qred_correct, inject_Z_plus. reflexivity.
Qed.

Lemma ltb_leb x y : (x <? y)%num = true -> leb x y = true.
Proof.
  destruct x as [a | | |], y as [b | | |]; simpl; auto.
  destruct (a ?= b)%Qc; auto; discriminate.
Qed.

Lemma leb_Fin a b : leb (Fin a) (Fin b) = true <-> (a <= b)%Qc.
Proof.
  cbn [leb]. rewrite Qcle_alt. destruct (a ?= b)%Qc; split; intros; auto;
    try discriminate; congruence.
Qed.

Lemma ltb_Fin a b : (Fin a <? Fin b)%num = true <-> (a < b)%Qc.
Proof.
  cbn [ltb]. rewrite Qclt_alt. destruct (a ?= b)%Qc; split; intros; auto;
    discriminate.
Qed.

Lemma leb_add a b n m :
  leb a (of_Z n) = true -> leb b (of_Z m) = true ->
  leb (a + b)%num (of_Z (n + m)) = true.
Proof.
  rewrite of_Z_add. unfold of_Z, of_Q.
  destruct a as [x | | |], b as [y | | |]; simpl; intros Ha Hb;
    try discriminate; auto.
  apply leb_Fin. apply leb_Fin in Ha, Hb. now apply Qcplus_le_compat.
Qed.

Lemma leb_pymin_one x : leb (pymin one x) one = true.
Proof.
  unfold pymin. destruct (x <? one)%num eqn:E; [now apply ltb_leb |].
  reflexivity.
Qed.

Lemma finite_sub x y : isfinite (x - y)%num = true -> isfinite x = true.
Proof. destruct x, y; simpl; auto. Qed.



Lemma is_positive_Fin x :
  is_positive x = true <-> exists q, x = Fin q /\ (Q2Qc (inject_Z 0) < q)%Qc.
Proof.
  unfold is_positive. split.
  - intros H. apply andb_prop in H as [Hf Hp].
    destruct x as [q | | |]; try discriminate Hf.
    exists q. split; [reflexivity | now apply ltb_Fin].
  - intros (q & -> & Hq). cbn [isfinite andb]. now apply ltb_Fin.
Qed.

(** An entry of the initial diagonal, [0.8 * x**2 + (1 - 0.8)]. *)
Lemma seed_positive (q : Qc) :
  (Q2Qc (inject_Z 0)
   < Q2Qc (4 # 5) * (q * q) + (Q2Qc (inject_Z 1) + - Q2Qc (4 # 5)))%Qc.
Proof.
  unfold Qclt. cbn [this Qcplus Qcmult Qcopp Q2Qc]. rewrite !Qred_correct.
  change (inject_Z 0) with 0%Q. change (inject_Z 1) with 1%Q.
  assert (H : (0 <= this q * this q)%Q) by nra.
  set (s := (this q * this q)%Q) in *. lra.
Qed.

(** An entry of the updated diagonal, [d + (x**2 - d) / N], for [N >= 2]. *)
Lemma blend_positive (d q : Qc) (N : Z) :
  (Q2Qc (inject_Z 0) < d)%Qc -> (2 <= N)%Z ->
  (Q2Qc (inject_Z 0) < d + (q * q + - d) / Q2Qc (inject_Z N))%Qc.
Proof.
  unfold Qclt. cbn [this Qcplus Qcmult Qcopp Qcdiv Qcinv Q2Qc].
  rewrite !Qred_correct. change (inject_Z 0) with 0%Q.
  intros Hd HN.
  assert (Hn : (2 <= inject_Z N)%Q).
  { change 2%Q with (inject_Z 2). now rewrite <- Zle_Qle. }
  assert (Hs : (0 <= this q * this q)%Q) by nra.
  set (s := (this q * this q)%Q) in *. set (n := inject_Z N) in *.
  assert (Ht : (0 < / n)%Q) by (apply Qinv_lt_0_compat; lra).
  assert (Ht1 : (n * / n == 1)%Q) by (apply Qmult_inv_r; lra).
  set (t := (/ n)%Q) in *. nra.
Qed.

Lemma inverse_positive (d : Qc) :
  (Q2Qc (inject_Z 0) < d)%Qc -> is_positive (one / Fin d)%num = true.
Proof.
  intros Hd. unfold one, of_Z, of_Q. cbn [npdiv].
  assert (E : (d ?= 0)%Qc = Gt) by (apply Qcgt_alt; exact Hd).
  rewrite E. apply is_positive_Fin. eexists. split; [reflexivity |].
  unfold Qclt in *. cbn [this Qcdiv Qcmult Qcinv Q2Qc] in *.
  rewrite !Qred_correct in *. change (inject_Z 0) with 0%Q in *.
  change (inject_Z 1) with 1%Q. rewrite Qmult_1_l.
  now apply Qinv_lt_0_compat.
Qed.

Lemma seed_entry x :
  isfinite x = true ->
  is_positive (of_Q (4 # 5) * (x * x) + (one - of_Q (4 # 5)))%num = true.
Proof.
  destruct x as [q | | |]; intros H; try discriminate H.
  apply is_positive_Fin. eexists. split; [reflexivity |]. apply seed_positive.
Qed.

Lemma blend_entry d x N :
  is_positive d = true -> isfinite x = true -> (2 <= N)%Z ->
  is_positive (d + (x * x - d) / of_Z N)%num = true.
Proof.
  intros Hd Hx HN. apply is_positive_Fin in Hd as (dq & -> & Hd).
  destruct x as [q | | |]; try discriminate Hx.
  unfold of_Z, of_Q. cbn [mul sub add neg npdiv].
  assert (HN0 : N <> 0%Z) by lia.
  pose proof (of_Z_compare_zero N HN0) as Hz.
  apply is_positive_Fin.
  destruct (Q2Qc (inject_Z N) ?= 0)%Qc; try congruence;
    (eexists; split; [reflexivity | now apply blend_positive]).
Qed.

(** ** More on lists and loops *)

Lemma forallb_map {A B} (p : B -> bool) (h : A -> B) l :
  forallb p (map h l) = forallb (fun x => p (h x)) l.
Proof. induction l; simpl; congruence. Qed.

Lemma forallb_impl {A} (p q : A -> bool) l :
  (forall x, p x = true -> q x = true) ->
  forallb p l = true -> forallb q l = true.
Proof.
  intros H. induction l; simpl; auto. intros E.
  apply andb_prop in E as [? ?]. rewrite H, IHl; auto.
Qed.

Lemma nth_upd {A} i k (x d : A) l :
  nth i (upd k x l) d = if (i =? k) && (k <? length l) then x else nth i l d.
Proof.
  revert i k; induction l as [| y l IH]; intros i k.
  - destruct k, i; simpl; rewrite ?andb_false_r; reflexivity.
  - destruct k as [| k], i as [| i]; cbn [upd nth length]; rewrite ?IH;
      reflexivity.
Qed.

Lemma skipn_repeat {A} (x : A) n k : skipn n (repeat x k) = repeat x (k - n).
Proof. revert k; induction n as [| n IH]; intros [| k]; cbn; auto. Qed.

Lemma rows_agree_upd f k m x rows values :
  rows_agree f k rows values ->
  rows_agree f k (upd m x rows) (upd m (fst (f x)) values).
Proof.
  intros [Hl H]. split; [now rewrite !length_upd |].
  intros i Hi Hlen. rewrite length_upd in Hlen. rewrite !nth_upd, Hl.
  destruct ((i =? m) && (m <? length rows)); auto.
Qed.

Lemma rows_agree_copy f m rows values :
  1 <= m -> rows_agree f m rows values ->
  rows_agree f (S m) (upd m (nth (m - 1) rows []) rows)
             (upd m (nth (m - 1) values NaN) values).
Proof.
  intros Hm [Hl H]. split; [now rewrite !length_upd |].
  intros i Hi Hlen. rewrite length_upd in Hlen. rewrite !nth_upd, Hl.
  destruct (i =? m) eqn:E; cbn [andb].
  - apply Nat.eqb_eq in E. subst i.
    replace (m <? length rows) with true by (symmetry; now apply Nat.ltb_lt).
    apply H; lia.
  - apply Nat.eqb_neq in E. apply H; lia.
Qed.

Lemma rows_agree_all f rows values n :
  rows_agree f (length rows) rows values ->
  Forall2 (fun x v => v = fst (f x)) (skipn n rows) (skipn n values).
Proof.
  intros [Hl H]. revert values Hl H n.
  induction rows as [| x rows IH]; intros [| v values] Hl H n;
    try discriminate Hl.
  - rewrite !skipn_nil. constructor.
  - assert (Hall : Forall2 (fun x v => v = fst (f x)) (x :: rows) (v :: values)).
    { constructor.
      - apply (H 0); cbn; lia.
      - rewrite <- (skipn_O rows), <- (skipn_O values). apply IH.
        + cbn in Hl. lia.
        + intros i Hi Hlen. apply (H (S i)); cbn; lia. }
    destruct n; [exact Hall |]. cbn [skipn]. apply IH.
    + cbn in Hl. lia.
    + intros i Hi Hlen. apply (H (S i)); cbn; lia.
Qed.

Lemma rows_are_copy {A} (x d : A) m l :
  1 <= m -> rows_are x d m l -> rows_are x d (S m) (upd m (nth (m - 1) l d) l).
Proof.
  intros Hm H i Hi Hlen. rewrite length_upd in Hlen. rewrite nth_upd.
  destruct (i =? m) eqn:E; cbn [andb].
  - apply Nat.eqb_eq in E. subst i.
    replace (m <? length l) with true by (symmetry; now apply Nat.ltb_lt).
    apply H; lia.
  - apply Nat.eqb_neq in E. apply H; lia.
Qed.

Lemma rows_are_repeat {A} (x d : A) l :
  rows_are x d (length l) l -> l = repeat x (length l).
Proof.
  induction l as [| y l IH]; intros H; [reflexivity |].
  cbn [length repeat]. f_equal.
  - apply (H 0); cbn; lia.
  - apply IH. intros i Hi Hlen. apply (H (S i)); cbn; lia.
Qed.

Lemma rows_hold_upd (P : num -> Prop) k m x values :
  P x -> rows_hold P k values -> rows_hold P k (upd m x values).
Proof.
  intros Hx H i Hi Hlen. rewrite length_upd in Hlen. rewrite nth_upd.
  destruct ((i =? m) && (m <? length values)); auto.
Qed.

Lemma rows_hold_copy (P : num -> Prop) m values :
  1 <= m -> rows_hold P m values ->
  rows_hold P (S m) (upd m (nth (m - 1) values NaN) values).
Proof.
  intros Hm H i Hi Hlen. rewrite length_upd in Hlen. rewrite nth_upd.
  destruct (i =? m) eqn:E; cbn [andb].
  - apply Nat.eqb_eq in E. subst i.
    replace (m <? length values) with true by (symmetry; now apply Nat.ltb_lt).
    apply H; lia.
  - apply Nat.eqb_neq in E. apply H; lia.
Qed.

Lemma rows_hold_all (P : num -> Prop) values n :
  rows_hold P (length values) values -> Forall P (skipn n values).
Proof.
  intros H.
  assert (Hall : Forall P values).
  { apply Forall_forall. intros x Hx.
    destruct (In_nth values x NaN Hx) as (i & Hi & <-). now apply H. }
  rewrite <- (firstn_skipn n values) in Hall.
  now apply Forall_app in Hall.
Qed.

Lemma for_range_app {T : Type} (body : nat -> T -> result T) l1 l2 : forall s,
  for_range (l1 ++ l2) body s
  = bind (for_range l1 body s) (fun s' => for_range l2 body s').
Proof.
  induction l1 as [| m l1 IH]; intros s; cbn [app for_range bind];
    [reflexivity |].
  destruct (body m s); cbn [bind]; auto.
Qed.

Lemma leb_div_one a n :
  leb a (of_Z n) = true -> (1 <= n)%Z ->
  exists abar, pydiv a (of_Z n) = Ok abar /\ leb abar one = true.
Proof.
  intros Ha Hn. exists (a / of_Z n)%num.
  assert (Hn0 : n <> 0%Z) by lia.
  split; [now apply pydiv_of_Z |].
  pose proof (of_Z_compare_zero n Hn0) as Hz.
  unfold of_Z, of_Q, one in *.
  destruct a as [q | | |]; cbn [leb npdiv] in *; try discriminate Ha.
  - destruct (Q2Qc (inject_Z n) ?= 0)%Qc eqn:E; try congruence.
    + apply Qclt_alt in E. exfalso. revert E. unfold Qclt.
      cbn [this Q2Qc]. rewrite !Qred_correct. change (inject_Z 0) with 0%Q.
      assert (H1 : (inject_Z 1 <= inject_Z n)%Q) by now rewrite <- Zle_Qle.
      change (inject_Z 1) with 1%Q in H1. lra.
    + apply leb_Fin. apply leb_Fin in Ha. apply Qcgt_alt in E.
      unfold Qcle, Qclt in *. cbn [this Qcdiv Qcmult Qcinv Q2Qc] in *.
      rewrite !Qred_correct in *. change (inject_Z 0) with 0%Q in *.
      change (inject_Z 1) with 1%Q.
      set (x := this q) in *. set (y := inject_Z n) in *.
      assert (Hi : (0 < / y)%Q) by now apply Qinv_lt_0_compat.
      assert (Hy : (y * / y == 1)%Q) by (apply Qmult_inv_r; lra).
      set (t := (/ y)%Q) in *. nra.
  - destruct (Q2Qc (inject_Z n) ?= 0)%Qc eqn:E; try reflexivity.
    apply Qclt_alt in E. exfalso. revert E. unfold Qclt.
    cbn [this Q2Qc]. rewrite !Qred_correct. change (inject_Z 0) with 0%Q.
    assert (H1 : (inject_Z 1 <= inject_Z n)%Q) by now rewrite <- Zle_Qle.
    change (inject_Z 1) with 1%Q in H1. lra.
Qed.

Lemma same_but_upd {A} m (d x : A) l l' :
  same_but m d l l' -> same_but m d l (upd m x l').
Proof.
  intros [Hl H]. split; [now rewrite length_upd |].
  intros i Hi. rewrite nth_upd.
  replace (i =? m) with false by (symmetry; now apply Nat.eqb_neq).
  now apply H.
Qed.

Lemma same_but_refl {A} m (d : A) l : same_but m d l l.
Proof. now split. Qed.

Lemma for_range_seq_invariant {T : Type} (I : nat -> T -> Prop) body :
  forall n a s,
  I a s ->
  (forall m s, a <= m < a + n -> I m s ->
               exists s', body m s = Ok s' /\ I (S m) s') ->
  exists s', for_range (seq a n) body s = Ok s' /\ I (a + n) s'.
Proof.
  induction n as [| n IH]; intros a s Hs Hbody.
  - exists s. rewrite Nat.add_0_r. now split.
  - assert (Ha : a <= a < a + S n) by lia.
    destruct (Hbody a s Ha Hs) as (s1 & E & Hs1).
    cbn [seq for_range]. rewrite E. cbn [bind].
    replace (a + S n) with (S a + n) by lia.
    apply IH; auto. intros m s' Hm. apply Hbody. lia.
Qed.

(** ** The mass matrix, entry by entry *)

Lemma seed_diagonal gr :
  forallb isfinite gr = true ->
  forallb is_positive
    (map (fun x => x + (one - of_Q (4 # 5)))%num
         (smul (of_Q (4 # 5)) (vsquare gr))) = true.
Proof.
  unfold smul, vsquare. rewrite !forallb_map.
  apply forallb_impl. intros x. apply seed_entry.
Qed.

Lemma blend_diagonal N : forall d gr,
  forallb is_positive d = true -> forallb isfinite gr = true -> (2 <= N)%Z ->
  forallb is_positive
    (vadd d (map (fun x => x / of_Z N)%num (vsub (vsquare gr) d))) = true.
Proof.
  unfold vadd, vsub, vsquare.
  induction d as [| d0 d IH]; intros [| x gr] Hd Hg HN; try reflexivity.
  cbn [map zip_with forallb] in *.
  apply andb_prop in Hd as [Hd0 Hd], Hg as [Hx Hg].
  rewrite blend_entry, IH; auto.
Qed.

Lemma inverse_diagonal d :
  forallb is_positive d = true -> forallb is_positive (inverse d) = true.
Proof.
  unfold inverse. rewrite forallb_map. apply forallb_impl. intros x Hx.
  apply is_positive_Fin in Hx as (q & -> & Hq). now apply inverse_positive.
Qed.

(** ** A step of size zero *)






Lemma unreachable_slice logp kinetic e :
  logp = NaN \/ logp = PInf -> unreachable (logp - kinetic - e)%num.
Proof.
  unfold unreachable.
  intros [-> | ->]; destruct kinetic, e; simpl; auto.
Qed.

Lemma box_oracle_real_gradient x : forallb isfinite (snd (box_oracle x)) = true.
Proof.
  unfold box_oracle. cbn [snd]. induction x as [| y x IH]; [reflexivity |].
  cbn [map forallb]. now rewrite IH.
Qed.

(** ** More on [build_tree] *)

Section MoreTree.
Context {L : Libm} {R : RandomState}.

Lemma tree_counts j : forall theta r gr logu v eps f joint0 imc im g,
  let t := fst (build_tree theta r gr logu v j eps f joint0 imc im g) in
  (0 <= nprime t <= nalphaprime t)%Z
  /\ (1 <= nalphaprime t <= 2 ^ Z.of_nat j)%Z
  /\ (sprime t = 0%Z \/ sprime t = 1%Z).
Proof.
  induction j as [| j IH]; intros theta r gr logu v eps f joint0 imc im g.
  - cbn [build_tree]. destruct (leapfrog _ _ _ _ _ _) as [[[? ?] ?] ?].
    cbv zeta. cbn [fst nprime nalphaprime sprime].
    destruct (_ <? _)%num, (isfinite _); try destruct (_ <? _)%num;
      simpl; lia.
  - rewrite build_tree_succ.
    pose proof (IH theta r gr logu v eps f joint0 imc im g) as B1.
    destruct (build_tree theta r gr logu v j eps f joint0 imc im g) as [t g1].
    cbv zeta in *. cbn [fst] in B1.
    rewrite Nat2Z.inj_succ, Z.pow_succ_r by lia.
    destruct (sprime t =? 1)%Z; [| cbn [fst]; lia].
    assert (B2 := fun th rr gg => IH th rr gg logu v eps f joint0 imc im g1).
    unfold second_subtree.
    destruct (v =? -1)%Z.
    + specialize (B2 (thetaminus t) (rminus t) (gradminus t)).
      destruct (build_tree _ _ _ _ _ _ _ _ _ _ _ g1) as [t2 g2].
      destruct (random_uniform g2). cbn [fst nprime nalphaprime sprime] in *.
      split; [lia |]. split; [lia |].
      destruct (_ && _); simpl; auto.
    + specialize (B2 (thetaplus t) (rplus t) (gradplus t)).
      destruct (build_tree _ _ _ _ _ _ _ _ _ _ _ g1) as [t2 g2].
      destruct (random_uniform g2). cbn [fst nprime nalphaprime sprime] in *.
      split; [lia |]. split; [lia |].
      destruct (_ && _); simpl; auto.
Qed.

(** X1.  Whatever the depth [j], the number of points of the subtree that
    lie in the slice is at most the number of points that entered the
    acceptance statistic, and that number is at least 1 and at most [2^j],
    the number of leaves: a subtree that stops early counts fewer points,
    never more. *)
Theorem build_tree_counts theta r gr logu v j eps f joint0 imc im g :
  let t := fst (build_tree theta r gr logu v j eps f joint0 imc im g) in
  (nprime t <= nalphaprime t)%Z
  /\ (1 <= nalphaprime t <= 2 ^ Z.of_nat j)%Z.
Proof.
  pose proof (tree_counts j theta r gr logu v eps f joint0 imc im g) as H.
  cbv zeta in *. destruct H as ([_ Hn] & Ha & _). now split.
Qed.

(** X2.  Once the subtree of depth [j] reports a stop ([sprime] is not 1),
    asking for a deeper tree from the same point changes nothing: the call
    at depth [k + j] returns the very same tree and leaves the random
    generator in the same state, so it takes no further leapfrog step and
    draws no further number. *)
Theorem build_tree_stopped j k theta r gr logu v eps f joint0 imc im g :
  sprime (fst (build_tree theta r gr logu v j eps f joint0 imc im g)) <> 1%Z ->
  build_tree theta r gr logu v (k + j) eps f joint0 imc im g
  = build_tree theta r gr logu v j eps f joint0 imc im g.
Proof.
  intros Hs.
  induction k as [| k IH]; [reflexivity |].
  cbn [Nat.add]. rewrite build_tree_succ, IH.
  destruct (build_tree theta r gr logu v j eps f joint0 imc im g) as [t g1].
  cbn [fst] in Hs. cbv zeta.
  destruct (sprime t =? 1)%Z eqn:E; [| reflexivity].
  apply Z.eqb_eq in E. contradiction.
Qed.

(** X3.  A subtree grows away from its starting point only.  Its endpoint
    on the side it started from (the plus end when it is built backwards,
    [v = -1]; the minus end otherwise) is, at every depth, the point one
    leapfrog step from the start: position, momentum and gradient are those
    of the tree of depth 0. *)
Theorem build_tree_near_endpoint j theta r gr logu v eps f joint0 imc im g :
  let t0 := fst (build_tree theta r gr logu v 0 eps f joint0 imc im g) in
  let t := fst (build_tree theta r gr logu v j eps f joint0 imc im g) in
  if (v =? -1)%Z
  then (thetaplus t, rplus t, gradplus t) = (thetaplus t0, rplus t0, gradplus t0)
  else (thetaminus t, rminus t, gradminus t)
       = (thetaminus t0, rminus t0, gradminus t0).
Proof.
  revert theta r gr logu v eps f joint0 imc im g.
  induction j as [| j IH]; intros theta r gr logu v eps f joint0 imc im g.
  - cbv zeta. destruct (v =? -1)%Z; reflexivity.
  - pose proof (IH theta r gr logu v eps f joint0 imc im g) as B1.
    cbv zeta in *. rewrite build_tree_succ.
    destruct (build_tree theta r gr logu v j eps f joint0 imc im g) as [t g1].
    cbn [fst] in B1. cbv zeta.
    destruct (sprime t =? 1)%Z; [| exact B1].
    destruct (second_subtree _ _ _ _ _ _ _ _ _ _) as [t2 g2].
    destruct (random_uniform g2).
    cbn [fst thetaplus rplus gradplus thetaminus rminus gradminus].
    destruct (v =? -1)%Z; exact B1.
Qed.

Lemma leapfrog_oracle theta r gr eps (f : oracle) im :
  let '(th, _, gp, lp) := leapfrog theta r gr eps f im in (lp, gp) = f th.
Proof. rewrite leapfrog_eq. cbv beta iota zeta. now destruct (f _). Qed.

Lemma tree_oracle j : forall theta r gr logu v eps f joint0 imc im g,
  let t := fst (build_tree theta r gr logu v j eps f joint0 imc im g) in
  (logpprime t, gradprime t) = f (thetaprime t)
  /\ gradminus t = snd (f (thetaminus t))
  /\ gradplus t = snd (f (thetaplus t)).
Proof.
  induction j as [| j IH]; intros theta r gr logu v eps f joint0 imc im g.
  - cbn [build_tree].
    pose proof (leapfrog_oracle theta r gr (of_Z v * eps)%num f im) as E.
    destruct (leapfrog _ _ _ _ _ _) as [[[th rp] gp] lp]. cbv zeta.
    cbn [fst logpprime gradprime thetaprime gradminus thetaminus gradplus
         thetaplus].
    rewrite <- E. auto.
  - rewrite build_tree_succ.
    pose proof (IH theta r gr logu v eps f joint0 imc im g) as B1.
    destruct (build_tree theta r gr logu v j eps f joint0 imc im g) as [t g1].
    cbv zeta in *. cbn [fst] in B1.
    destruct (sprime t =? 1)%Z; [| exact B1].
    assert (B2 := fun th rr gg => IH th rr gg logu v eps f joint0 imc im g1).
    unfold second_subtree.
    destruct (v =? -1)%Z.
    + specialize (B2 (thetaminus t) (rminus t) (gradminus t)).
      destruct (build_tree _ _ _ _ _ _ _ _ _ _ _ g1) as [t2 g2].
      destruct (random_uniform g2) as [u g3].
      cbn [fst logpprime gradprime thetaprime gradminus thetaminus gradplus
           thetaplus] in *.
      destruct B1 as (? & ? & ?), B2 as (? & ? & ?).
      split; [destruct (match _ with Ok _ => _ | _ => _ end); assumption |].
      auto.
    + specialize (B2 (thetaplus t) (rplus t) (gradplus t)).
      destruct (build_tree _ _ _ _ _ _ _ _ _ _ _ g1) as [t2 g2].
      destruct (random_uniform g2) as [u g3].
      cbn [fst logpprime gradprime thetaprime gradminus thetaminus gradplus
           thetaplus] in *.
      destruct B1 as (? & ? & ?), B2 as (? & ? & ?).
      split; [destruct (match _ with Ok _ => _ | _ => _ end); assumption |].
      auto.
Qed.

(** X4.  What a subtree returns stays consistent with the oracle, whichever
    of its leaves the random choices pick: the log-density and the gradient
    returned with the candidate are the oracle's values at the candidate, and
    the gradients returned with the two endpoints are the oracle's gradients
    at those endpoints. *)
Theorem build_tree_oracle theta r gr logu v j eps f joint0 imc im g :
  let t := fst (build_tree theta r gr logu v j eps f joint0 imc im g) in
  logpprime t = fst (f (thetaprime t))
  /\ gradprime t = snd (f (thetaprime t))
  /\ gradminus t = snd (f (thetaminus t))
  /\ gradplus t = snd (f (thetaplus t)).
Proof.
  pose proof (tree_oracle j theta r gr logu v eps f joint0 imc im g) as H.
  cbv zeta in *. destruct H as (Hc & Hm & Hp).
  rewrite <- Hc. cbn [fst snd]. auto.
Qed.

Lemma flag_one_subtrees theta r gr logu v j eps f joint0 imc im g :
  let '(t1, g1) := build_tree theta r gr logu v j eps f joint0 imc im g in
  let t2 := fst (second_subtree t1 logu v j eps f joint0 imc im g1) in
  let t := fst (build_tree theta r gr logu v (S j) eps f joint0 imc im g) in
  sprime t = 1%Z ->
  sprime t1 = 1%Z /\ sprime t2 = 1%Z
  /\ stop_criterion (thetaminus t) (thetaplus t) (rminus t) (rplus t) im = true.
Proof.
  rewrite build_tree_succ.
  pose proof (tree_counts j theta r gr logu v eps f joint0 imc im g) as B1.
  destruct (build_tree theta r gr logu v j eps f joint0 imc im g) as [t1 g1].
  cbv zeta in *. cbn [fst] in B1.
  destruct (sprime t1 =? 1)%Z eqn:E1.
  - apply Z.eqb_eq in E1.
    assert (B2 : sprime (fst (second_subtree t1 logu v j eps f joint0 imc im g1)) = 0%Z
                 \/ sprime (fst (second_subtree t1 logu v j eps f joint0 imc im g1)) = 1%Z).
    { unfold second_subtree. destruct (v =? -1)%Z; apply tree_counts. }
    destruct (second_subtree _ _ _ _ _ _ _ _ _ _) as [t2 g2].
    destruct (random_uniform g2) as [u g3].
    cbn [fst sprime thetaminus thetaplus rminus rplus] in *.
    intros Hs. apply b2z_eq_1 in Hs.
    apply andb_prop in Hs as [Hs Hstop]. apply andb_prop in Hs as [_ Hs2].
    split; [exact E1 |]. split; [| exact Hstop].
    destruct B2 as [B2 | B2]; [| exact B2]. rewrite B2 in Hs2. discriminate.
  - cbn [fst]. intros Hs. rewrite Hs in E1. discriminate.
Qed.

(** X5.  A tree of depth [j + 1] reports "go on" ([sprime = 1]) only if both
    of its halves did and its own two endpoints have not made a U-turn: the
    flag of the first half is 1, the flag of the second half is 1, and
    [stop_criterion] holds of the endpoints of the whole tree. *)
Theorem build_tree_flag_one theta r gr logu v j eps f joint0 imc im g :
  let t1 := fst (build_tree theta r gr logu v j eps f joint0 imc im g) in
  let g1 := snd (build_tree theta r gr logu v j eps f joint0 imc im g) in
  let t2 := fst (second_subtree t1 logu v j eps f joint0 imc im g1) in
  let t := fst (build_tree theta r gr logu v (S j) eps f joint0 imc im g) in
  sprime t = 1%Z ->
  sprime t1 = 1%Z /\ sprime t2 = 1%Z
  /\ stop_criterion (thetaminus t) (thetaplus t) (rminus t) (rplus t) im = true.
Proof.
  pose proof (flag_one_subtrees theta r gr logu v j eps f joint0 imc im g) as H.
  destruct (build_tree theta r gr logu v j eps f joint0 imc im g) as [t1 g1].
  exact H.
Qed.

(** The acceptance statistic of a subtree is a sum of probabilities:
    [alphaprime] never exceeds [nalphaprime]. *)
Lemma tree_alpha_bounded j theta r gr logu v eps f joint0 imc im g :
  let t := fst (build_tree theta r gr logu v j eps f joint0 imc im g) in
  leb (alphaprime t) (of_Z (nalphaprime t)) = true.
Proof.
  revert theta r gr logu v eps f joint0 imc im g.
  induction j as [| j IH]; intros theta r gr logu v eps f joint0 imc im g.
  - cbn [build_tree]. destruct (leapfrog _ _ _ _ _ _) as [[[? ?] ?] ?].
    cbv zeta. cbn [fst alphaprime nalphaprime].
    destruct (negb _); [reflexivity | apply leb_pymin_one].
  - rewrite build_tree_succ.
    pose proof (IH theta r gr logu v eps f joint0 imc im g) as B1.
    destruct (build_tree theta r gr logu v j eps f joint0 imc im g) as [t g1].
    cbv zeta in *. cbn [fst] in B1.
    destruct (sprime t =? 1)%Z; [| exact B1].
    assert (B2 : leb (alphaprime (fst (second_subtree t logu v j eps f joint0 imc im g1)))
                     (of_Z (nalphaprime (fst (second_subtree t logu v j eps f joint0 imc im g1)))) = true).
    { unfold second_subtree. destruct (v =? -1)%Z; apply IH. }
    destruct (second_subtree _ _ _ _ _ _ _ _ _ _) as [t2 g2].
    destruct (random_uniform g2). cbn [fst alphaprime nalphaprime] in *.
    now apply leb_add.
Qed.

(** The candidate of a tree that reports "go on" has a finite log-density:
    a leaf whose joint log-density is infinite or not a number clears the
    flag. *)
Lemma finite_candidate j theta r gr logu v eps f joint0 imc im g :
  let t := fst (build_tree theta r gr logu v j eps f joint0 imc im g) in
  sprime t = 1%Z -> isfinite (logpprime t) = true.
Proof.
  revert theta r gr logu v eps f joint0 imc im g.
  induction j as [| j IH]; intros theta r gr logu v eps f joint0 imc im g.
  - cbn [build_tree]. destruct (leapfrog _ _ _ _ _ _) as [[[th rp] gp] lp].
    cbv zeta. cbn [fst sprime logpprime].
    destruct (isfinite (joint_of lp imc rp)) eqn:E; [| discriminate].
    intros _. unfold joint_of in E. cbv zeta in E. now apply finite_sub in E.
  - pose proof (flag_one_subtrees theta r gr logu v j eps f joint0 imc im g) as F.
    pose proof (IH theta r gr logu v eps f joint0 imc im g) as B1.
    rewrite build_tree_succ in *.
    destruct (build_tree theta r gr logu v j eps f joint0 imc im g) as [t g1].
    cbv zeta in *. cbn [fst] in B1.
    destruct (sprime t =? 1)%Z eqn:E1; [| exact B1].
    assert (B2 : sprime (fst (second_subtree t logu v j eps f joint0 imc im g1)) = 1%Z ->
                 isfinite (logpprime (fst (second_subtree t logu v j eps f joint0 imc im g1))) = true).
    { unfold second_subtree. destruct (v =? -1)%Z; apply IH. }
    destruct (second_subtree _ _ _ _ _ _ _ _ _ _) as [t2 g2].
    destruct (random_uniform g2) as [u g3].
    cbn [fst sprime logpprime thetaminus thetaplus rminus rplus] in *.
    intros Hs. destruct (F Hs) as (H1 & H2 & _).
    destruct (match _ with Ok _ => _ | _ => _ end); auto.
Qed.

Lemma build_tree_unreachable j : forall theta r gr logu v eps f joint0 imc im g,
  unreachable logu ->
  let t := fst (build_tree theta r gr logu v j eps f joint0 imc im g) in
  nprime t = 0%Z /\ sprime t = 0%Z.
Proof.
  induction j as [| j IH]; intros theta r gr logu v eps f joint0 imc im g Hu.
  - cbn [build_tree]. destruct (leapfrog _ _ _ _ _ _) as [[[? ?] ?] ?].
    cbv zeta. cbn [fst nprime sprime].
    destruct Hu as [-> | ->]; cbn [sub add neg thousand of_Z of_Q ltb];
      destruct (joint_of _ _ _); simpl; auto.
  - rewrite build_tree_succ.
    pose proof (IH theta r gr logu v eps f joint0 imc im g Hu) as B1.
    destruct (build_tree theta r gr logu v j eps f joint0 imc im g) as [t g1].
    cbv zeta in *. cbn [fst] in B1. destruct B1 as [Hn Hs].
    rewrite Hs. cbn. auto.
Qed.

End MoreTree.

(** ** More on the doubling loop and the outer loop *)

Section MoreLoop.
Context {L : Libm} {R : RandomState}.

Lemma doubling_round_inversion m logu eps f joint imc im mtd st st' :
  doubling_round m logu eps f joint imc im mtd st = Ok st' ->
  exists theta r gr v g accept,
    round_of m
      (fst (build_tree theta r gr logu v (st_j st) eps f joint imc im g))
      accept mtd st st'.
Proof.
  unfold doubling_round.
  destruct (random_uniform (st_gen st)) as [u g]. cbv zeta.
  set (v := (2 * Z.b2z (u <? half)%num - 1)%Z).
  set (theta := if (v =? -1)%Z then st_thetaminus st else st_thetaplus st).
  set (r := if (v =? -1)%Z then st_rminus st else st_rplus st).
  set (gr := if (v =? -1)%Z then st_gradminus st else st_gradplus st).
  assert (E : (if (v =? -1)%Z
               then build_tree (st_thetaminus st) (st_rminus st)
                      (st_gradminus st) logu v (st_j st) eps f joint imc im g
               else build_tree (st_thetaplus st) (st_rplus st)
                      (st_gradplus st) logu v (st_j st) eps f joint imc im g)
              = build_tree theta r gr logu v (st_j st) eps f joint imc im g).
  { unfold theta, r, gr. now destruct (v =? -1)%Z. }
  rewrite E. clear E.
  destruct (build_tree theta r gr logu v (st_j st) eps f joint imc im g)
    as [t g'] eqn:Et.
  destruct (pydiv _ _) as [ratio | |]; cbn [bind]; try discriminate.
  destruct (sprime t =? 1)%Z eqn:Es.
  - destruct (random_uniform g') as [u' g'']. intros [= <-].
    exists theta, r, gr, v, g, (u' <? pymin one ratio)%num. rewrite Et.
    split; cbn [fst st_j st_n st_alpha st_nalpha st_samples st_lnprob st_logp
                st_grad st_s]; auto.
    + intros _. now apply Z.eqb_eq.
    + intros Hs. apply andb_prop in Hs as [Hs Hd].
      apply andb_prop in Hs as [Hs _]. split; [| now apply Z.ltb_lt].
      unfold truthy in Hs. intros H0. rewrite H0 in Hs. discriminate.
  - intros [= <-]. exists theta, r, gr, v, g, false. rewrite Et.
    split; cbn [fst st_j st_n st_alpha st_nalpha st_samples st_lnprob st_logp
                st_grad st_s]; auto; try discriminate.
    intros Hs. apply andb_prop in Hs as [Hs Hd].
    apply andb_prop in Hs as [Hs _]. split; [| now apply Z.ltb_lt].
    unfold truthy in Hs. intros H0. rewrite H0 in Hs. discriminate.
Qed.

Lemma doubling_loop_visited m logu eps f joint imc im mtd st0 fuel :
  forall st st',
  visited m logu eps f joint imc im mtd st0 st ->
  doubling_loop fuel m logu eps f joint imc im mtd st = Ok st' ->
  visited m logu eps f joint imc im mtd st0 st'.
Proof.
  unfold doubling_loop.
  induction fuel as [| fuel IH]; intros st st' Hv; cbn [while_loop];
    destruct (st_s st) eqn:Hs; try discriminate; try (now intros [= <-]).
  destruct (doubling_round m logu eps f joint imc im mtd st) as [st1 | |] eqn:E;
    cbn [bind]; try discriminate.
  apply IH. now apply visited_next with st.
Qed.

Lemma visited_invariant (I : doubling -> Prop) m logu eps f joint imc im mtd
  st0 st :
  I st0 ->
  (forall s s', I s -> st_s s = true ->
                doubling_round m logu eps f joint imc im mtd s = Ok s' -> I s') ->
  visited m logu eps f joint imc im mtd st0 st -> I st.
Proof. intros H0 Hstep Hv. induction Hv; eauto. Qed.

(** X8.  In the main loop the count [n] of valid points of the trajectory
    stays between 1 and [2^j], where [j] counts the doublings done: the
    trajectory has [2^j] points, the initial one is always valid. *)
Theorem valid_count_below_size m logu eps f joint imc im max_tree_depth c r0 g st :
  visited m logu eps f joint imc im max_tree_depth (doubling_init m c r0 g) st ->
  (1 <= st_n st <= 2 ^ Z.of_nat (st_j st))%Z.
Proof.
  refine (visited_invariant
            (fun s => (1 <= st_n s <= 2 ^ Z.of_nat (st_j s))%Z)
            _ _ _ _ _ _ _ _ _ _ _ _).
  - cbn. lia.
  - intros s s' Hs _ E.
    destruct (doubling_round_inversion _ _ _ _ _ _ _ _ _ _ E)
      as (theta & r & gr & v & g0 & accept & Hr).
    rewrite (round_j _ _ _ _ _ _ Hr), (round_n _ _ _ _ _ _ Hr).
    pose proof (nprime_bounds (st_j s) theta r gr logu v eps f joint imc im g0).
    rewrite Nat2Z.inj_succ, Z.pow_succ_r by lia. lia.
Qed.

Lemma round_rows_agree k m logu eps f joint imc im mtd st st' :
  rows_agree f k (st_samples st) (st_lnprob st) ->
  doubling_round m logu eps f joint imc im mtd st = Ok st' ->
  rows_agree f k (st_samples st') (st_lnprob st').
Proof.
  intros H E.
  destruct (doubling_round_inversion _ _ _ _ _ _ _ _ _ _ E)
    as (theta & r & gr & v & g & accept & Hr).
  rewrite (round_samples _ _ _ _ _ _ Hr), (round_lnprob _ _ _ _ _ _ Hr).
  destruct accept; [| exact H].
  destruct (tree_oracle (st_j st) theta r gr logu v eps f joint imc im g)
    as (Ho & _).
  cbv zeta in Ho.
  replace (logpprime _) with (fst (f (thetaprime
    (fst (build_tree theta r gr logu v (st_j st) eps f joint imc im g)))))
    by (now rewrite <- Ho).
  now apply rows_agree_upd.
Qed.

Lemma round_grad_finite m logu eps f joint imc im mtd st st' :
  (forall x, forallb isfinite (snd (f x)) = true) ->
  forallb isfinite (st_grad st) = true ->
  doubling_round m logu eps f joint imc im mtd st = Ok st' ->
  forallb isfinite (st_grad st') = true.
Proof.
  intros Hf H E.
  destruct (doubling_round_inversion _ _ _ _ _ _ _ _ _ _ E)
    as (theta & r & gr & v & g & accept & Hr).
  rewrite (round_grad _ _ _ _ _ _ Hr). destruct accept; [| exact H].
  destruct (tree_oracle (st_j st) theta r gr logu v eps f joint imc im g)
    as (Ho & _).
  cbv zeta in Ho. apply (f_equal snd) in Ho. cbn [snd] in Ho. rewrite Ho.
  apply Hf.
Qed.

Lemma doubling_loop_stuck fuel m eps f imc im max_tree_depth c r0 g kinetic e :
  logp c = NaN \/ logp c = PInf ->
  exists st,
    doubling_loop (S fuel) m (logp c - kinetic - e)%num eps f
                  (logp c - kinetic)%num imc im max_tree_depth
                  (doubling_init m c r0 g) = Ok st
    /\ st_j st = 1
    /\ st_samples st = upd m (nth (m - 1) (samples c) []) (samples c)
    /\ st_logp st = logp c.
Proof.
  intros Hlogp.
  pose proof (unreachable_slice (logp c) kinetic e Hlogp) as Hu.
  set (logu := (logp c - kinetic - e)%num) in *.
  set (joint := (logp c - kinetic)%num).
  set (st0 := doubling_init m c r0 g).
  destruct (doubling_round_counters m logu eps f joint imc im max_tree_depth st0)
    as (st & E & _); [cbn; lia |].
  destruct (doubling_round_inversion _ _ _ _ _ _ _ _ _ _ E)
    as (theta & r & gr & v & g0 & accept & Hr).
  destruct (build_tree_unreachable (st_j st0) theta r gr logu v eps f joint
              imc im g0 Hu) as [_ Hs].
  cbv zeta in Hs.
  assert (Ha : accept = false).
  { destruct accept; auto. pose proof (round_accept _ _ _ _ _ _ Hr eq_refl).
    congruence. }
  assert (Hstop : st_s st = false).
  { destruct (st_s st) eqn:Es; auto.
    destruct (round_s _ _ _ _ _ _ Hr Es). congruence. }
  exists st. unfold doubling_loop.
  assert (Hs0 : st_s st0 = true) by reflexivity.
  cbn [while_loop]. rewrite Hs0, E. cbn [bind].
  split; [destruct fuel; cbn [while_loop]; now rewrite Hstop |].
  split; [exact (round_j _ _ _ _ _ _ Hr) |].
  rewrite (round_samples _ _ _ _ _ _ Hr), (round_logp _ _ _ _ _ _ Hr), Ha.
  split; reflexivity.
Qed.

Lemma adapt_keeps Madapt delta mu em m abar c c' :
  adapt Madapt delta mu em m abar c = Ok c' ->
  samples c' = samples c /\ lnprob c' = lnprob c
  /\ logp c' = logp c /\ grad c' = grad c /\ gen c' = gen c.
Proof.
  unfold adapt. destruct (m <=? Madapt).
  - destruct (pydiv _ _); cbn [bind]; try discriminate.
    intros [= <-]. cbn. auto.
  - intros [= <-]. cbn. auto.
Qed.

Lemma adapt_mass Madapt delta mu m abar c c' :
  adapt Madapt delta mu true m abar c = Ok c' -> mass_inv c -> mass_inv c'.
Proof.
  intros E [Hd Hi Hn Hg]. revert E. unfold adapt.
  destruct (m <=? Madapt).
  - destruct (pydiv _ _); cbn [bind]; try discriminate.
    intros [= <-]. split; cbn [diag_mass_avg inv_mass diag_mass_N grad]; auto.
    + apply blend_diagonal; auto. lia.
    + destruct (_ =? _)%Z; lia.
  - intros [= <-]. split; cbn; auto.
Qed.

(** An outer iteration that returns went through its doubling loop, ended
    it in a state [st], and adapted the chain that [st] leaves. *)
Lemma iteration_adapt fuel Madapt D f delta mu mtd em m c c' :
  iteration fuel Madapt D f delta mu mtd em m c = Ok c' ->
  exists logu joint r0 g st abar,
    visited m logu (epsilon c) f joint (inv_mass_chol c) (inv_mass c) mtd
            (doubling_init m c r0 g) st
    /\ adapt Madapt delta mu em m abar
         (Chain (st_samples st) (st_lnprob st) (st_logp st) (st_grad st)
                (epsilon c) (logepsilon c) (logepsilonbar c) (Hbar c)
                (m_adapt c) (diag_mass_avg c) (diag_mass_N c) (mass_chol c)
                (inv_mass c) (inv_mass_chol c) (st_gen st)) = Ok c'.
Proof.
  unfold iteration.
  destruct (random_normal D (gen c)) as [z g1].
  destruct (random_exponential g1) as [e g2]. cbv zeta.
  destruct (doubling_loop _ _ _ _ _ _ _ _ _ _) as [st | |] eqn:E;
    cbn [bind]; try discriminate.
  destruct (pydiv _ _) as [abar | |]; cbn [bind]; try discriminate.
  intros Ha. eexists _, _, _, _, st, abar. split; [| exact Ha].
  eapply doubling_loop_visited; [apply visited_first | exact E].
Qed.

Lemma iteration_inversion fuel Madapt D f delta mu mtd em m c c' :
  iteration fuel Madapt D f delta mu mtd em m c = Ok c' ->
  exists logu joint r0 g st,
    visited m logu (epsilon c) f joint (inv_mass_chol c) (inv_mass c) mtd
            (doubling_init m c r0 g) st
    /\ samples c' = st_samples st /\ lnprob c' = st_lnprob st
    /\ logp c' = st_logp st /\ grad c' = st_grad st.
Proof.
  intros E.
  destruct (iteration_adapt _ _ _ _ _ _ _ _ _ _ _ E)
    as (logu & joint & r0 & g & st & abar & Hv & Ha).
  apply adapt_keeps in Ha as (Hs & Hl & Hp & Hg & _).
  cbn [samples lnprob logp grad] in *.
  eexists _, _, _, _, st. split; [exact Hv | auto].
Qed.

(** X9.  An outer iteration [m] that returns has written row [m] of the
    two buffers and nothing else: [samples] and [lnprob] keep their lengths
    and every other row, among them row [m - 1], of which the endpoints of
    the trajectory are views. *)
Theorem iteration_writes_row fuel Madapt D f delta mu mtd em m c c' :
  iteration fuel Madapt D f delta mu mtd em m c = Ok c' ->
  same_but m [] (samples c) (samples c')
  /\ same_but m NaN (lnprob c) (lnprob c').
Proof.
  intros E.
  destruct (iteration_inversion _ _ _ _ _ _ _ _ _ _ _ E)
    as (logu & joint & r0 & g & st & Hv & -> & -> & _).
  refine (visited_invariant
            (fun s => same_but m [] (samples c) (st_samples s)
                      /\ same_but m NaN (lnprob c) (st_lnprob s))
            _ _ _ _ _ _ _ _ _ _ _ _ Hv).
  - cbn [doubling_init st_samples st_lnprob].
    split; apply same_but_upd, same_but_refl.
  - intros s s' [Hs Hl] _ Er.
    destruct (doubling_round_inversion _ _ _ _ _ _ _ _ _ _ Er)
      as (theta & r & gr & v & g0 & accept & Hr).
    rewrite (round_samples _ _ _ _ _ _ Hr), (round_lnprob _ _ _ _ _ _ Hr).
    destruct accept; [| now split].
    split; now apply same_but_upd.
Qed.

Lemma iteration_rows_agree fuel Madapt D f delta mu mtd em m c c' :
  1 <= m ->
  rows_agree f m (samples c) (lnprob c) ->
  iteration fuel Madapt D f delta mu mtd em m c = Ok c' ->
  rows_agree f (S m) (samples c') (lnprob c').
Proof.
  intros Hm H E.
  destruct (iteration_inversion _ _ _ _ _ _ _ _ _ _ _ E)
    as (logu & joint & r0 & g & st & Hv & -> & -> & _).
  refine (visited_invariant
            (fun s => rows_agree f (S m) (st_samples s) (st_lnprob s))
            _ _ _ _ _ _ _ _ _ _ _ _ Hv).
  - cbn [doubling_init st_samples st_lnprob]. now apply rows_agree_copy.
  - intros s s' Hs _. now apply round_rows_agree.
Qed.

Lemma iteration_production fuel Madapt D f delta mu mtd em m c c' :
  Madapt < m ->
  iteration fuel Madapt D f delta mu mtd em m c = Ok c' ->
  epsilon c' = exp (logepsilonbar c)
  /\ logepsilonbar c' = logepsilonbar c
  /\ (mass_chol c', inv_mass c', inv_mass_chol c')
     = (mass_chol c, inv_mass c, inv_mass_chol c).
Proof.
  intros Hm E.
  destruct (iteration_adapt _ _ _ _ _ _ _ _ _ _ _ E)
    as (logu & joint & r0 & g & st & abar & _ & Ha).
  revert Ha. unfold adapt. replace (m <=? Madapt) with false
    by (symmetry; apply Nat.leb_gt; exact Hm).
  intros [= <-]. cbn. auto.
Qed.

Lemma iteration_mass fuel Madapt D f delta mu mtd m c c' :
  (forall x, forallb isfinite (snd (f x)) = true) ->
  iteration fuel Madapt D f delta mu mtd true m c = Ok c' ->
  mass_inv c -> mass_inv c'.
Proof.
  intros Hf E Hc.
  destruct (iteration_adapt _ _ _ _ _ _ _ _ _ _ _ E)
    as (logu & joint & r0 & g & st & abar & Hv & Ha).
  apply (adapt_mass _ _ _ _ _ _ _ Ha). destruct Hc as [Hd Hi Hn Hg].
  split; cbn [diag_mass_avg inv_mass diag_mass_N grad]; auto.
  refine (visited_invariant (fun s => forallb isfinite (st_grad s) = true)
            _ _ _ _ _ _ _ _ _ _ _ _ Hv).
  - exact Hg.
  - intros s s' Hs _. now apply round_grad_finite.
Qed.

Lemma iteration_stuck N theta0 fuel Madapt D f delta mu mtd em m c :
  (Z.max 1 mtd <= Z.of_nat fuel)%Z -> 1 <= m ->
  chain_inv N theta0 c ->
  logp c = NaN \/ logp c = PInf ->
  exists c', iteration fuel Madapt D f delta mu mtd em m c = Ok c'
             /\ chain_inv N theta0 c'
             /\ samples c' = upd m (nth (m - 1) (samples c) []) (samples c)
             /\ logp c' = logp c.
Proof.
  intros Hfuel Hm Hc Hlogp.
  destruct (iteration_runs N theta0 fuel Madapt D f delta mu mtd em m c
              Hfuel Hm Hc) as (c' & E & Hc').
  exists c'. split; [exact E |]. split; [exact Hc' |].
  revert E. unfold iteration.
  destruct (random_normal D (gen c)) as [z g1].
  destruct (random_exponential g1) as [e g2]. cbv zeta.
  destruct fuel as [| fuel]; [lia |].
  destruct (doubling_loop_stuck fuel m (epsilon c) f (inv_mass_chol c)
              (inv_mass c) mtd c (bmul (mass_chol c) z) g2
              (half * dot z z)%num e Hlogp)
    as (st & -> & _ & Hs & Hl).
  cbn [bind]. destruct (pydiv _ _) as [abar | |]; cbn [bind]; try discriminate.
  intros Ha. apply adapt_keeps in Ha as (-> & _ & -> & _).
  cbn [samples logp]. now split.
Qed.

Lemma exp_zero : exp zero = one.
Proof. change (exp zero) with (exp_fin 0). apply exp_fin_zero. Qed.

(** X10.  Whenever the step-size search returns, [nuts6] returns [M]
    samples and, parallel to them, their log-densities: entry [i] of the
    returned [lnprob] is the log-density the oracle gives at row [i] of the
    returned [samples], for the rows the chain moved to and for the rows it
    copied from the row before alike. *)
Theorem nuts6_lnprob_parallel uninit fuel f M Madapt D theta delta
  max_tree_depth epsilon0 estimate_mass g eps1 g1 :
  find_reasonable_epsilon fuel theta (snd (f theta)) (fst (f theta)) f
    epsilon0 (snd (fst (initial_mass estimate_mass (snd (f theta))))) g
  = Ok (eps1, g1) ->
  (Z.max 1 max_tree_depth <= Z.of_nat fuel)%Z ->
  exists rows values tuning g',
    nuts6 uninit fuel f (S M) Madapt (NDArray [D] theta) delta max_tree_depth
          epsilon0 estimate_mass g
    = Ok (rows, values, tuning, g')
    /\ length rows = S M
    /\ Forall2 (fun x v => v = fst (f x)) rows values.
Proof.
  intros Heps Hfuel. unfold nuts6.
  cbn [shape data length len bind Nat.ltb Nat.leb].
  destruct (f theta) as [logp0 grad0] eqn:Ef. cbn [fst snd] in Heps.
  destruct (initial_mass estimate_mass grad0) as [[[d0 mc0] im0] imc0].
  cbn [fst snd] in Heps. cbn [Nat.add Nat.eqb]. rewrite Heps. cbn [bind].
  match goal with
  | |- context [for_range (seq 1 ?n) ?body ?c0] =>
      destruct (for_range_seq_invariant
                  (fun m c => chain_inv (S (M + Madapt)) theta c
                              /\ rows_agree f m (samples c) (lnprob c))
                  body n 1 c0)
        as (c & -> & [Hrows _ _] & Hagree)
  end.
  - split; [split |]; cbn [samples lnprob m_adapt]; try lia.
    + now rewrite length_upd, repeat_length.
    + reflexivity.
    + split; [now rewrite !length_upd, !repeat_length |].
      intros i Hi _. replace i with 0 by lia. cbn. now rewrite Ef.
  - intros m c Hm [Hc Ha].
    destruct (iteration_runs (S (M + Madapt)) theta fuel Madapt D f delta
                (log (of_Z 10 * eps1)) max_tree_depth estimate_mass m c)
      as (c' & E & Hc'); auto; [lia |].
    exists c'. split; [exact E |]. split; [exact Hc' |].
    eapply iteration_rows_agree; eauto. lia.
  - cbn [bind]. do 4 eexists. split; [reflexivity |].
    split; [rewrite length_skipn; lia |].
    apply rows_agree_all.
    replace (length (samples c)) with (1 + (M + Madapt - 0)) by lia.
    exact Hagree.
Qed.

(** X11.  Without burn-in ([Madapt = 0]) and with at least two samples
    asked for, the step size [nuts6] returns is [exp(0) = 1], whatever
    [epsilon0] and whatever the step-size search found: from the first
    iteration on the step size is set from [logepsilonbar], which nothing
    moves from its initial 0.  The inverse mass matrix returned is the
    initial one. *)
Theorem nuts6_without_burn_in uninit fuel f M D theta delta max_tree_depth
  epsilon0 estimate_mass g eps1 g1 :
  find_reasonable_epsilon fuel theta (snd (f theta)) (fst (f theta)) f
    epsilon0 (snd (fst (initial_mass estimate_mass (snd (f theta))))) g
  = Ok (eps1, g1) ->
  (Z.max 1 max_tree_depth <= Z.of_nat fuel)%Z ->
  exists rows values g',
    nuts6 uninit fuel f (S (S M)) 0 (NDArray [D] theta) delta max_tree_depth
          epsilon0 estimate_mass g
    = Ok (rows, values,
          (one, snd (fst (initial_mass estimate_mass (snd (f theta))))), g').
Proof.
  intros Heps Hfuel. unfold nuts6.
  cbn [shape data length len bind Nat.ltb Nat.leb].
  destruct (f theta) as [logp0 grad0] eqn:Ef. cbn [fst snd] in *.
  destruct (initial_mass estimate_mass grad0) as [[[d0 mc0] im0] imc0].
  cbn [fst snd] in *. cbn [Nat.add Nat.eqb]. rewrite Heps. cbn [bind].
  match goal with
  | |- context [for_range (seq 1 ?n) ?body ?c0] =>
      destruct (for_range_seq_invariant
                  (fun m c => chain_inv (S (S (M + 0))) theta c
                              /\ logepsilonbar c = zero /\ inv_mass c = im0
                              /\ (2 <= m -> epsilon c = one))
                  body n 1 c0)
        as (c & -> & _ & _ & Him & He)
  end.
  - split; [split |]; cbn [samples logepsilonbar inv_mass epsilon m_adapt];
      try lia; auto.
    + now rewrite length_upd, repeat_length.
    + split; [reflexivity |]. split; [reflexivity | lia].
  - intros m c Hm (Hc & Hbar & Him & _).
    destruct (iteration_runs (S (S (M + 0))) theta fuel 0 D f delta
                (log (of_Z 10 * eps1)) max_tree_depth estimate_mass m c)
      as (c' & E & Hc'); auto; [lia |].
    exists c'. split; [exact E |]. split; [exact Hc' |].
    assert (Hprod : 0 < m) by lia.
    destruct (iteration_production _ _ _ _ _ _ _ _ _ _ _ Hprod E)
      as (He & Hb & Hmass).
    injection Hmass as _ Hi _.
    rewrite Hb, Hi, He, Hbar. split; [reflexivity |]. split; [exact Him |].
    intros _. apply exp_zero.
  - cbn [bind]. do 3 eexists. rewrite Him, He by lia. reflexivity.
Qed.

(** X12.  With [estimate_mass] on and an oracle whose gradients are always
    real, whenever the step-size search returns, [nuts6] returns a diagonal
    inverse mass matrix whose entries are all finite and strictly positive
    (in exact arithmetic): the running average of the squared gradients
    starts above [1 - 0.8] and every update keeps it positive, so the
    kinetic energy stays a positive quadratic form through the burn-in. *)
Theorem nuts6_mass_positive uninit fuel f M Madapt D theta delta
  max_tree_depth epsilon0 g eps1 g1 :
  (forall x, forallb isfinite (snd (f x)) = true) ->
  find_reasonable_epsilon fuel theta (snd (f theta)) (fst (f theta)) f
    epsilon0 (snd (fst (initial_mass true (snd (f theta))))) g
  = Ok (eps1, g1) ->
  (Z.max 1 max_tree_depth <= Z.of_nat fuel)%Z ->
  exists rows values eps invM g',
    nuts6 uninit fuel f (S M) Madapt (NDArray [D] theta) delta max_tree_depth
          epsilon0 true g
    = Ok (rows, values, (eps, Diag invM), g')
    /\ forallb is_positive invM = true.
Proof.
  intros Hf Heps Hfuel. unfold nuts6.
  cbn [shape data length len bind Nat.ltb Nat.leb].
  pose proof (Hf theta) as Hg0.
  destruct (f theta) as [logp0 grad0] eqn:Ef. cbn [fst snd] in *.
  cbn [initial_mass] in *. cbv zeta in *. cbn [fst snd] in Heps.
  cbn [Nat.add Nat.eqb]. rewrite Heps. cbn [bind].
  match goal with
  | |- context [for_range (seq 1 ?n) ?body ?c0] =>
      destruct (for_range_seq_invariant
                  (fun (_ : nat) c => chain_inv (S (M + Madapt)) theta c
                                      /\ mass_inv c)
                  body n 1 c0)
        as (c & -> & _ & [Hd Hi _ _])
  end.
  - split; split; cbn [samples m_adapt diag_mass_avg inv_mass diag_mass_N grad];
      try lia; auto.
    + now rewrite length_upd, repeat_length.
    + now apply seed_diagonal.
  - intros m c Hm [Hc Hmass].
    destruct (iteration_runs (S (M + Madapt)) theta fuel Madapt D f delta
                (log (of_Z 10 * eps1)) max_tree_depth true m c)
      as (c' & E & Hc'); auto; [lia |].
    exists c'. split; [exact E |]. split; [exact Hc' |].
    now apply (iteration_mass _ _ _ _ _ _ _ _ _ _ Hf E).
  - cbn [bind]. rewrite Hi. do 5 eexists. split; [reflexivity |].
    now apply inverse_diagonal.
Qed.

(** X13.  A chain started where the log-density is not a number never
    moves: whenever the step-size search returns, [nuts6] returns, without
    any error, [M] copies of [theta0].  (The slice level is then not a
    number either, no point lies in the slice, and every subtree clears its
    flag.) *)
Theorem nuts6_stuck uninit fuel f M Madapt D theta delta max_tree_depth
  epsilon0 estimate_mass g eps1 g1 :
  fst (f theta) = NaN ->
  find_reasonable_epsilon fuel theta (snd (f theta)) (fst (f theta)) f
    epsilon0 (snd (fst (initial_mass estimate_mass (snd (f theta))))) g
  = Ok (eps1, g1) ->
  (Z.max 1 max_tree_depth <= Z.of_nat fuel)%Z ->
  exists values tuning g',
    nuts6 uninit fuel f (S M) Madapt (NDArray [D] theta) delta max_tree_depth
          epsilon0 estimate_mass g
    = Ok (repeat theta (S M), values, tuning, g').
Proof.
  intros Hlogp Heps Hfuel. unfold nuts6.
  cbn [shape data length len bind Nat.ltb Nat.leb].
  destruct (f theta) as [logp0 grad0] eqn:Ef. cbn [fst snd] in Heps, Hlogp.
  destruct (initial_mass estimate_mass grad0) as [[[d0 mc0] im0] imc0].
  cbn [fst snd] in Heps. cbn [Nat.add Nat.eqb]. rewrite Heps. cbn [bind].
  match goal with
  | |- context [for_range (seq 1 ?n) ?body ?c0] =>
      destruct (for_range_seq_invariant
                  (fun m c => chain_inv (S (M + Madapt)) theta c
                              /\ logp c = logp0
                              /\ rows_are theta [] m (samples c))
                  body n 1 c0)
        as (c & -> & [Hrows _ _] & _ & Hall)
  end.
  - split; [split |]; cbn [samples logp m_adapt]; try lia.
    + now rewrite length_upd, repeat_length.
    + reflexivity.
    + split; [reflexivity |]. intros i Hi _. now replace i with 0 by lia.
  - intros m c Hm (Hc & Hl & Ha).
    destruct (iteration_stuck (S (M + Madapt)) theta fuel Madapt D f delta
                (log (of_Z 10 * eps1)) max_tree_depth estimate_mass m c)
      as (c' & E & Hc' & Hs & Hl'); auto; [lia | left; congruence |].
    exists c'. split; [exact E |]. split; [exact Hc' |].
    split; [congruence |]. rewrite Hs. apply rows_are_copy; [lia | exact Ha].
  - cbn [bind].
    assert (Hall' : rows_are theta [] (length (samples c)) (samples c)).
    { intros i Hi Hlen. apply Hall; lia. }
    rewrite (rows_are_repeat _ _ _ Hall'), Hrows, skipn_repeat.
    replace (S (M + Madapt) - Madapt) with (S M) by lia.
    do 3 eexists. reflexivity.
Qed.

Lemma iteration_keeps_rows fuel Madapt D f delta mu mtd em m c c' :
  iteration fuel Madapt D f delta mu mtd em m c = Ok c' ->
  same_but m [] (samples c) (samples c')
  /\ same_but m NaN (lnprob c) (lnprob c').
Proof.
  intros E.
  destruct (iteration_inversion _ _ _ _ _ _ _ _ _ _ _ E)
    as (logu & joint & r0 & g & st & Hv & -> & -> & _).
  refine (visited_invariant
            (fun s => same_but m [] (samples c) (st_samples s)
                      /\ same_but m NaN (lnprob c) (st_lnprob s))
            _ _ _ _ _ _ _ _ _ _ _ _ Hv).
  - cbn [doubling_init st_samples st_lnprob].
    split; apply same_but_upd, same_but_refl.
  - intros s s' [Hs Hl] _ Er.
    destruct (doubling_round_inversion _ _ _ _ _ _ _ _ _ _ Er)
      as (theta & r & gr & v & g0 & accept & Hr).
    rewrite (round_samples _ _ _ _ _ _ Hr), (round_lnprob _ _ _ _ _ _ Hr).
    destruct accept; [| now split].
    split; now apply same_but_upd.
Qed.

(** C6.  What [nuts6] returns as its first sample.  Whenever the step-size
    search returns, [nuts6] returns too (given fuel for
    [max(1, max_tree_depth)] doublings).  Its outer loop runs the [Madapt]
    burn-in iterations, which take the chain from [first_chain] to
    [c_burn], and then [M - 1] more, which end in [c].  Row 0 of the buffer
    of [c] is [theta0], but what is returned is that buffer without its
    first [Madapt] rows: [M] samples, the first of which is row [Madapt] of
    the buffer as the burn-in left it, that is, the position of the chain
    after the burn-in.  It is [theta0] when [Madapt = 0]. *)
Theorem nuts6_first_sample uninit fuel f M Madapt D theta delta
  max_tree_depth epsilon0 estimate_mass g eps1 g1 :
  find_reasonable_epsilon fuel theta (snd (f theta)) (fst (f theta)) f
    epsilon0 (snd (fst (initial_mass estimate_mass (snd (f theta))))) g
  = Ok (eps1, g1) ->
  (Z.max 1 max_tree_depth <= Z.of_nat fuel)%Z ->
  exists c_burn c,
    for_range (seq 1 Madapt)
      (iteration fuel Madapt D f delta (log (of_Z 10 * eps1)) max_tree_depth
                 estimate_mass)
      (first_chain uninit (S M + Madapt) D f theta estimate_mass eps1 g1)
    = Ok c_burn
    /\ for_range (seq (S Madapt) M)
         (iteration fuel Madapt D f delta (log (of_Z 10 * eps1))
                    max_tree_depth estimate_mass)
         c_burn
       = Ok c
    /\ nuts6 uninit fuel f (S M) Madapt (NDArray [D] theta) delta
             max_tree_depth epsilon0 estimate_mass g
       = Ok (skipn Madapt (samples c), skipn Madapt (lnprob c),
             (epsilon c, inv_mass c), gen c)
    /\ length (skipn Madapt (samples c)) = S M
    /\ hd_error (samples c) = Some theta
    /\ hd_error (skipn Madapt (samples c)) = nth_error (samples c_burn) Madapt
    /\ (Madapt = 0 -> hd_error (skipn Madapt (samples c)) = Some theta).
Proof.
  intros Heps Hfuel.
  set (body := iteration fuel Madapt D f delta (log (of_Z 10 * eps1))
                 max_tree_depth estimate_mass).
  set (c0 := first_chain uninit (S M + Madapt) D f theta estimate_mass eps1 g1).
  assert (H0 : chain_inv (S (M + Madapt)) theta c0).
  { unfold c0, first_chain. destruct (initial_mass _ _) as [[[d0 mc0] im0] imc0].
    split; cbn [samples m_adapt]; try lia.
    - now rewrite length_upd, repeat_length.
    - reflexivity. }
  destruct (for_range_invariant (chain_inv (S (M + Madapt)) theta)
              (seq 1 Madapt) body) with (s := c0) as (cb & Eb & Hb); auto.
  { intros m c Hin Hc. apply iteration_runs; auto. apply in_seq in Hin. lia. }
  destruct (for_range_invariant
              (fun c => chain_inv (S (M + Madapt)) theta c
                        /\ nth Madapt (samples c) []
                           = nth Madapt (samples cb) [])
              (seq (S Madapt) M) body) with (s := cb)
    as (c & Ec & [Hrows Hfirst _] & Hkeep); auto.
  { intros m c Hin [Hc Hk]. apply in_seq in Hin.
    destruct (iteration_runs (S (M + Madapt)) theta fuel Madapt D f delta
                (log (of_Z 10 * eps1)) max_tree_depth estimate_mass m c)
      as (c' & E & Hc'); auto; [lia |].
    exists c'. split; [exact E |]. split; [exact Hc' |].
    destruct (iteration_keeps_rows _ _ _ _ _ _ _ _ _ _ _ E) as [[_ Hs] _].
    rewrite Hs by lia. exact Hk. }
  exists cb, c. split; [exact Eb |]. split; [exact Ec |].
  assert (Hnth : hd_error (skipn Madapt (samples c))
                 = nth_error (samples cb) Madapt).
  { rewrite hd_skipn_nth.
    destruct Hb as [Hrb _ _].
    rewrite (nth_error_nth' (samples c) []) by lia.
    rewrite (nth_error_nth' (samples cb) []) by lia.
    now rewrite Hkeep. }
  split.
  - unfold nuts6. cbn [shape data length len bind Nat.ltb Nat.leb].
    unfold c0, first_chain in Eb.
    destruct (f theta) as [logp0 grad0]. cbn [fst snd] in Heps, Eb.
    destruct (initial_mass estimate_mass grad0) as [[[d0 mc0] im0] imc0].
    cbn [fst snd] in Heps. cbn [Nat.add Nat.eqb]. rewrite Heps. cbn [bind].
    replace (S (M + Madapt) - 1) with (Madapt + M) by lia.
    rewrite seq_app, for_range_app. fold body.
    change (S (M + Madapt)) with (S M + Madapt).
    rewrite Eb. cbn [bind]. change (1 + Madapt) with (S Madapt).
    rewrite Ec. reflexivity.
  - split; [rewrite length_skipn; lia |]. split; [exact Hfirst |].
    split; [exact Hnth |].
    intros ->. rewrite Hnth. cbn [seq for_range] in Eb.
    injection Eb as <-. unfold c0, first_chain.
    destruct (initial_mass _ _) as [[[d0 mc0] im0] imc0]. reflexivity.
Qed.

Lemma loop_acceptance_bounded fuel m logu eps f joint imc im
  max_tree_depth c r0 g st :
  doubling_loop fuel m logu eps f joint imc im max_tree_depth
                (doubling_init m c r0 g) = Ok st ->
  leb (st_alpha st) (of_Z (st_nalpha st)) = true /\ (1 <= st_nalpha st)%Z.
Proof.
  intros E.
  assert (Hv : visited m logu eps f joint imc im max_tree_depth
                       (doubling_init m c r0 g) st).
  { eapply doubling_loop_visited; [apply visited_first | exact E]. }
  refine (visited_invariant
            (fun s => leb (st_alpha s) (of_Z (st_nalpha s)) = true
                      /\ (1 <= st_nalpha s)%Z)
            _ _ _ _ _ _ _ _ _ _ _ _ Hv).
  - cbn [doubling_init st_alpha st_nalpha]. split; [reflexivity | lia].
  - intros s s' _ _ Er.
    destruct (doubling_round_inversion _ _ _ _ _ _ _ _ _ _ Er)
      as (theta & r & gr & v & g0 & accept & Hr).
    rewrite (round_alpha _ _ _ _ _ _ Hr), (round_nalpha _ _ _ _ _ _ Hr).
    split; [apply tree_alpha_bounded | apply nalphaprime_positive].
Qed.

(** X6.  In an outer iteration that completes, the doubling loop ends in a
    state [st] whose acceptance statistic is bounded by its count,
    [alpha <= nalpha] with [nalpha >= 1], so the mean acceptance
    [alpha / float(nalpha)] that [nuts6] prints and feeds to the dual
    averaging is defined and at most 1: the iteration is the adaptation
    run with that value [abar] on the variables that [st] leaves. *)
Theorem mean_acceptance_at_most_one fuel Madapt D f delta mu max_tree_depth
  estimate_mass m c c' :
  iteration fuel Madapt D f delta mu max_tree_depth estimate_mass m c
  = Ok c' ->
  let z := fst (random_normal D (gen c)) in
  let g1 := snd (random_normal D (gen c)) in
  let e := fst (random_exponential g1) in
  let g2 := snd (random_exponential g1) in
  let joint := (logp c - half * dot z z)%num in
  exists st abar,
    doubling_loop fuel m (joint - e)%num (epsilon c) f joint (inv_mass_chol c)
                  (inv_mass c) max_tree_depth
                  (doubling_init m c (bmul (mass_chol c) z) g2) = Ok st
    /\ leb (st_alpha st) (of_Z (st_nalpha st)) = true
    /\ (1 <= st_nalpha st)%Z
    /\ pydiv (st_alpha st) (of_Z (st_nalpha st)) = Ok abar
    /\ leb abar one = true
    /\ adapt Madapt delta mu estimate_mass m abar
         (Chain (st_samples st) (st_lnprob st) (st_logp st) (st_grad st)
                (epsilon c) (logepsilon c) (logepsilonbar c) (Hbar c)
                (m_adapt c) (diag_mass_avg c) (diag_mass_N c) (mass_chol c)
                (inv_mass c) (inv_mass_chol c) (st_gen st)) = Ok c'.
Proof.
  unfold iteration.
  destruct (random_normal D (gen c)) as [z g1]. cbv zeta. cbn [fst snd].
  destruct (random_exponential g1) as [e g2]. cbn [fst snd].
  destruct (doubling_loop _ _ _ _ _ _ _ _ _ _) as [st | |] eqn:E;
    cbn [bind]; try discriminate.
  destruct (loop_acceptance_bounded _ _ _ _ _ _ _ _ _ _ _ _ _ E) as [Ha Hn].
  destruct (leb_div_one _ _ Ha Hn) as (abar & Hp & Hbar1).
  rewrite Hp. cbn [bind]. intros Hc'. exists st, abar.
  split; [reflexivity |]. split; [exact Ha |]. split; [exact Hn |].
  split; [exact Hp |]. split; [exact Hbar1 | exact Hc'].
Qed.

Lemma iteration_lnprob_finite logp0 fuel Madapt D f delta mu mtd em m c c' :
  1 <= m ->
  rows_hold (fun v => v = logp0 \/ isfinite v = true) m (lnprob c) ->
  iteration fuel Madapt D f delta mu mtd em m c = Ok c' ->
  rows_hold (fun v => v = logp0 \/ isfinite v = true) (S m) (lnprob c').
Proof.
  intros Hm H E.
  destruct (iteration_inversion _ _ _ _ _ _ _ _ _ _ _ E)
    as (logu & joint & r0 & g & st & Hv & _ & -> & _).
  refine (visited_invariant
            (fun s => rows_hold (fun v => v = logp0 \/ isfinite v = true)
                        (S m) (st_lnprob s))
            _ _ _ _ _ _ _ _ _ _ _ _ Hv).
  - cbn [doubling_init st_lnprob]. now apply rows_hold_copy.
  - intros s s' Hs _ Er.
    destruct (doubling_round_inversion _ _ _ _ _ _ _ _ _ _ Er)
      as (theta & r & gr & v & g0 & accept & Hr).
    rewrite (round_lnprob _ _ _ _ _ _ Hr).
    destruct accept eqn:Ea; [| exact Hs].
    apply rows_hold_upd; [| exact Hs]. right.
    apply finite_candidate. now apply (round_accept _ _ _ _ _ _ Hr).
Qed.

(** X7.  Whenever the step-size search returns, [nuts6] returns [M]
    log-densities each of which is finite or is the log-density at [theta0]:
    an infinite or undefined log-density can appear in the output only if it
    is the initial one.  (The chain moves to the candidate of a subtree only
    when its flag is 1, and a leaf whose joint log-density is infinite or
    not a number clears the flag.) *)
Theorem nuts6_lnprob_finite uninit fuel f M Madapt D theta delta
  max_tree_depth epsilon0 estimate_mass g eps1 g1 :
  find_reasonable_epsilon fuel theta (snd (f theta)) (fst (f theta)) f
    epsilon0 (snd (fst (initial_mass estimate_mass (snd (f theta))))) g
  = Ok (eps1, g1) ->
  (Z.max 1 max_tree_depth <= Z.of_nat fuel)%Z ->
  exists rows values tuning g',
    nuts6 uninit fuel f (S M) Madapt (NDArray [D] theta) delta max_tree_depth
          epsilon0 estimate_mass g
    = Ok (rows, values, tuning, g')
    /\ length values = S M
    /\ Forall (fun v => v = fst (f theta) \/ isfinite v = true) values.
Proof.
  intros Heps Hfuel. unfold nuts6.
  cbn [shape data length len bind Nat.ltb Nat.leb].
  destruct (f theta) as [logp0 grad0] eqn:Ef. cbn [fst snd] in Heps.
  destruct (initial_mass estimate_mass grad0) as [[[d0 mc0] im0] imc0].
  cbn [fst snd] in Heps. cbn [Nat.add Nat.eqb]. rewrite Heps. cbn [bind].
  match goal with
  | |- context [for_range (seq 1 ?n) ?body ?c0] =>
      destruct (for_range_seq_invariant
                  (fun m c =>
                     chain_inv (S (M + Madapt)) theta c
                     /\ length (lnprob c) = S (M + Madapt)
                     /\ rows_hold (fun v => v = logp0 \/ isfinite v = true)
                          m (lnprob c))
                  body n 1 c0)
        as (c & -> & _ & Hlen & Hall)
  end.
  - split; [split |]; cbn [samples lnprob m_adapt]; try lia.
    + now rewrite length_upd, repeat_length.
    + reflexivity.
    + split; [now rewrite length_upd, repeat_length |].
      intros i Hi _. replace i with 0 by lia. left. reflexivity.
  - intros m c Hm (Hc & Hl & Ha).
    destruct (iteration_runs (S (M + Madapt)) theta fuel Madapt D f delta
                (log (of_Z 10 * eps1)) max_tree_depth estimate_mass m c)
      as (c' & E & Hc'); auto; [lia |].
    exists c'. split; [exact E |]. split; [exact Hc' |]. split.
    + destruct (iteration_keeps_rows _ _ _ _ _ _ _ _ _ _ _ E) as [_ [Hl' _]].
      congruence.
    + eapply iteration_lnprob_finite; eauto. lia.
  - cbn [bind]. do 4 eexists. split; [reflexivity |].
    split; [rewrite length_skipn; lia |].
    apply rows_hold_all. intros i Hi Hi'. apply Hall; lia.
Qed.

(** ** More on [find_reasonable_epsilon] *)


End MoreLoop.

(** ** The example target *)

Lemma correlated_normal_eq (x y : Qc) :
  correlated_normal [Fin x; Fin y]
  = (Fin (Q2Qc (1 # 2)
          * (Q2Qc (inject_Z 0)
             + - (Q2Qc (inject_Z 0) + x * Q2Qc (50251256 # 1000000)
                  + y * Q2Qc (- 24874372 # 1000000)) * x
             + - (Q2Qc (inject_Z 0) + x * Q2Qc (- 24874372 # 1000000)
                  + y * Q2Qc (12562814 # 1000000)) * y)),
     [Fin (- (Q2Qc (inject_Z 0) + x * Q2Qc (50251256 # 1000000)
              + y * Q2Qc (- 24874372 # 1000000)));
      Fin (- (Q2Qc (inject_Z 0) + x * Q2Qc (- 24874372 # 1000000)
              + y * Q2Qc (12562814 # 1000000)))]).
Proof. reflexivity. Qed.

(** X16.  The example target [correlated_normal] of [test_nuts6] keeps the
    contract of an oracle at every real point of the plane: its log-density
    is at most 0, its value at the origin (the matrix [A] is positive
    definite), and the vector it returns is the gradient of that
    log-density, in that the log-density at [theta + h] is the one at
    [theta], plus the product of the returned vector with [h], plus the
    log-density at [h] (the second-order term of a quadratic form; this
    needs [A] symmetric). *)
Theorem correlated_normal_target (x y a b : Qc) :
  let theta := [Fin x; Fin y] in
  let h := [Fin a; Fin b] in
  leb (fst (correlated_normal theta)) zero = true
  /\ fst (correlated_normal [Fin (x + a); Fin (y + b)])
     = (fst (correlated_normal theta) + dot (snd (correlated_normal theta)) h
        + fst (correlated_normal h))%num.
Proof.
  cbv zeta. rewrite !correlated_normal_eq. cbn [fst snd]. split.
  - apply leb_Fin. unfold Qcle.
    cbn [this Qcplus Qcmult Qcopp Q2Qc]. rewrite !Qred_correct.
    change (inject_Z 0) with 0%Q.
    set (p := this x). set (q := this y).
    set (t := ((50251256 # 1000000) * p - (24874372 # 1000000) * q)%Q).
    assert (H1 : (0 <= t * t)%Q) by nra.
    assert (H2 : (0 <= q * q)%Q) by nra.
    unfold t in H1. nra.
  - unfold dot, vmul. cbn [zip_with fold_left]. unfold zero, of_Z, of_Q.
    cbn [add mul]. f_equal. apply Qc_is_canon.
    cbn [this Qcplus Qcmult Qcopp Q2Qc]. rewrite !Qred_correct.
    change (inject_Z 0) with 0%Q. ring.
Qed.

(** ** Further concrete instances *)

(** X2 at a step that leaves the box. *)
Lemma build_tree_stopped_witness :
  @build_tree libm_ref tape [zero] [one] [zero] zero 1 (2 + 0) two box_oracle
    zero (Scalar one) (Scalar one) demo_tape
  = @build_tree libm_ref tape [zero] [one] [zero] zero 1 0 two box_oracle
      zero (Scalar one) (Scalar one) demo_tape.
Proof.
  apply (@build_tree_stopped libm_ref tape 0 2).
  intros H. vm_compute in H. discriminate H.
Defined.

(** X5 at the tree of depth 1 of the run. *)
Lemma build_tree_flag_one_witness :
  sprime (fst (demo_tree 0)) = 1%Z
  /\ sprime (fst (@second_subtree libm_ref tape (fst (demo_tree 0)) demo_logu
                    1 0 two box_oracle demo_joint (Scalar one) (Scalar one)
                    (snd (demo_tree 0)))) = 1%Z
  /\ stop_criterion (thetaminus (fst (demo_tree 1)))
       (thetaplus (fst (demo_tree 1))) (rminus (fst (demo_tree 1)))
       (rplus (fst (demo_tree 1))) (Scalar one) = true.
Proof.
  apply (@build_tree_flag_one libm_ref tape [zero] [quarter] [zero] demo_logu
           1 0 two box_oracle demo_joint (Scalar one) (Scalar one)
           [quarter; zero]).
  vm_compute. reflexivity.
Defined.

(** X8 after the first doubling of the run. *)
Lemma valid_count_below_size_witness :
  exists st,
    @doubling_round libm_ref tape 1 demo_logu two box_oracle demo_joint
      (Scalar one) (Scalar one) 10
      (@doubling_init tape 1 demo_chain [quarter] [quarter; zero]) = Ok st
    /\ (1 <= st_n st <= 2 ^ Z.of_nat (st_j st))%Z.
Proof.
  eexists. split; [vm_compute; reflexivity |].
  apply (@valid_count_below_size libm_ref tape 1 demo_logu two box_oracle
           demo_joint (Scalar one) (Scalar one) 10 demo_chain [quarter]
           [quarter; zero]).
  eapply visited_next;
    [apply visited_first | reflexivity | vm_compute; reflexivity].
Defined.

(** X9 at iteration 1 of the run. *)
Lemma iteration_writes_row_witness :
  exists c',
    @iteration libm_ref tape 10 0 1 box_oracle (of_Q (3 # 5)) zero 2 false 1
      demo_chain_start = Ok c'
    /\ same_but 1 [] (samples demo_chain_start) (samples c')
    /\ same_but 1 NaN (lnprob demo_chain_start) (lnprob c').
Proof.
  eexists. split; [vm_compute; reflexivity |].
  apply (@iteration_writes_row libm_ref tape 10 0 1 box_oracle (of_Q (3 # 5))
           zero 2 false 1 demo_chain_start).
  vm_compute. reflexivity.
Defined.

(** X10 at the run with one burn-in sample. *)
Lemma nuts6_lnprob_parallel_witness :
  exists rows values tuning g',
    @demo_run libm_ref 1 1 = Ok (rows, values, tuning, g')
    /\ length rows = 1
    /\ Forall2 (fun x v => v = fst (box_oracle x)) rows values.
Proof.
  eapply (@nuts6_lnprob_parallel libm_ref tape NaN 10 box_oracle 0 1 1 [zero]
            (of_Q (3 # 5)) 1 one false demo_tape).
  - vm_compute. reflexivity.
  - lia.
Defined.

(** X11 at a run of two samples without burn-in. *)
Lemma nuts6_without_burn_in_witness :
  exists rows values g',
    @nuts6 libm_ref tape NaN 10 box_oracle 2 0 (NDArray [1] [zero])
      (of_Q (3 # 5)) 1 one false demo_tape
    = Ok (rows, values,
          (one, snd (fst (initial_mass false (snd (box_oracle [zero]))))), g').
Proof.
  eapply (@nuts6_without_burn_in libm_ref tape NaN 10 box_oracle 0 1 [zero]
            (of_Q (3 # 5)) 1 one false demo_tape).
  - vm_compute. reflexivity.
  - lia.
Defined.

(** X12 at a run with one burn-in sample that estimates the mass matrix. *)
Lemma nuts6_mass_positive_witness :
  exists rows values eps invM g',
    @nuts6 libm_ref tape NaN 10 box_oracle 1 1 (NDArray [1] [zero])
      (of_Q (3 # 5)) 1 one true demo_tape
    = Ok (rows, values, (eps, Diag invM), g')
    /\ forallb is_positive invM = true.
Proof.
  eapply (@nuts6_mass_positive libm_ref tape NaN 10 box_oracle 0 1 1 [zero]
            (of_Q (3 # 5)) 1 one demo_tape).
  - exact box_oracle_real_gradient.
  - vm_compute. reflexivity.
  - lia.
Defined.

(** X13 at a log-density that is not a number at the starting point. *)
Lemma nuts6_stuck_witness :
  exists values tuning g',
    @nuts6 libm_ref tape NaN 10 hole_oracle 2 1 (NDArray [1] [zero])
      (of_Q (3 # 5)) 1 one false demo_tape
    = Ok (repeat [zero] 2, values, tuning, g').
Proof.
  eapply (@nuts6_stuck libm_ref tape NaN 10 hole_oracle 1 1 1 [zero]
            (of_Q (3 # 5)) 1 one false demo_tape).
  - reflexivity.
  - vm_compute. reflexivity.
  - lia.
Defined.


(** C6 at the run with one burn-in sample. *)
Lemma nuts6_first_sample_witness :
  exists c_burn c,
    for_range (seq 1 1)
      (@iteration libm_ref tape 10 1 1 box_oracle (of_Q (3 # 5))
         (log (of_Z 10 * (half * one * (one * one) * two * two))) 1 false)
      (@first_chain libm_ref tape NaN (1 + 1) 1 box_oracle [zero] false
         (half * one * (one * one) * two * two)%num (tl demo_tape))
    = Ok c_burn
    /\ for_range (seq 2 0)
         (@iteration libm_ref tape 10 1 1 box_oracle (of_Q (3 # 5))
            (log (of_Z 10 * (half * one * (one * one) * two * two))) 1 false)
         c_burn
       = Ok c
    /\ @demo_run libm_ref 1 1
       = Ok (skipn 1 (samples c), skipn 1 (lnprob c),
             (epsilon c, inv_mass c), gen c)
    /\ length (skipn 1 (samples c)) = 1
    /\ hd_error (samples c) = Some [zero]
    /\ hd_error (skipn 1 (samples c)) = nth_error (samples c_burn) 1
    /\ (1 = 0 -> hd_error (skipn 1 (samples c)) = Some [zero]).
Proof.
  apply (@nuts6_first_sample libm_ref tape NaN 10 box_oracle 0 1 1 [zero]
           (of_Q (3 # 5)) 1 one false demo_tape
           (half * one * (one * one) * two * two)%num (tl demo_tape)).
  - exact (@demo_search libm_ref).
  - lia.
Defined.

(** X6 at iteration 1 of the run. *)
Lemma mean_acceptance_at_most_one_witness :
  exists c',
    @iteration libm_ref tape 10 0 1 box_oracle (of_Q (3 # 5)) zero 2 false 1
      demo_chain_start = Ok c'
    /\ exists st abar,
         @doubling_loop libm_ref tape 10 1 (demo_joint - one)%num two
           box_oracle demo_joint (Scalar one) (Scalar one) 2
           (@doubling_init tape 1 demo_chain_start [quarter] [quarter; zero])
         = Ok st
         /\ leb (st_alpha st) (of_Z (st_nalpha st)) = true
         /\ (1 <= st_nalpha st)%Z
         /\ pydiv (st_alpha st) (of_Z (st_nalpha st)) = Ok abar
         /\ leb abar one = true
         /\ @adapt libm_ref tape 0 (of_Q (3 # 5)) zero false 1 abar
              (Chain (st_samples st) (st_lnprob st) (st_logp st) (st_grad st)
                     two zero zero zero 1 [] 1 (Scalar one) (Scalar one)
                     (Scalar one) (st_gen st)) = Ok c'.
Proof.
  eexists. split; [vm_compute; reflexivity |].
  apply (@mean_acceptance_at_most_one libm_ref tape 10 0 1 box_oracle
           (of_Q (3 # 5)) zero 2 false 1 demo_chain_start).
  vm_compute. reflexivity.
Defined.

(** X7 at the run with one burn-in sample. *)
Lemma nuts6_lnprob_finite_witness :
  exists rows values tuning g',
    @demo_run libm_ref 1 1 = Ok (rows, values, tuning, g')
    /\ length values = 1
    /\ Forall (fun v => v = fst (box_oracle [zero]) \/ isfinite v = true)
         values.
Proof.
  eapply (@nuts6_lnprob_finite libm_ref tape NaN 10 box_oracle 0 1 1 [zero]
            (of_Q (3 # 5)) 1 one false demo_tape).
  - vm_compute. reflexivity.
  - lia.
Defined.
